(** * A streaming chat proxy: validator, upstream relay, usage accumulator

    Shallow embedding of the Express application made of
    [src/controllers/chat.controller.js] (handleChat),
    [src/services/ai.service.js] (streamAIReply, _recordUsage, getTokenStats),
    [src/middleware/error.middleware.js] (errorMiddleware) and the
    [/api/stats] route of [server.js].

    Modelling conventions.
    - A JavaScript string is the list of its UTF-16 code units, so that
      [.length] is the length of the list and [.trim()] strips the
      ECMAScript white space and line terminator code units.
    - Token counts and counters are JavaScript numbers that hold integers;
      they are integers ([Z]) here, and their addition is the exact sum
      rounded to a double ([js_add]).
    - The three object literals handed to [JSON.stringify] inside an SSE
      frame are the three constructors of [SsePayload]; the text
      [data: <json>\n\n] around them is not spelled out.
    - The response object is a record mutated through a state and exception
      monad; the channel is the trace of the writes made on it.
    - [_tokenStats] is an object in a heap of objects, and [getTokenStats]
      allocates the copy it returns, so that aliasing can be stated. *)

From Stdlib Require Import ZArith QArith Ascii DecimalString.
From stdpp Require Import gmap strings list fin_maps.

Local Open Scope Z_scope.
Set Warnings "-register-all".

(** ** JavaScript strings *)

Definition jsstring := list N.

Fixpoint lit (s : string) : jsstring :=
  match s with
  | EmptyString => []
  | String a s' => N_of_ascii a :: lit s'
  end.

(** The double quote, which the error messages of the controller contain. *)
Definition dquote : jsstring := [34%N].

(** WhiteSpace and LineTerminator of ECMAScript, the code units that
    [String.prototype.trim] removes: TAB, LF, VT, FF, CR, SP, NBSP,
    U+1680, U+2000..U+200A, U+2028, U+2029, U+202F, U+205F, U+3000, BOM. *)
Definition is_whitespace (c : N) : bool :=
  ((9 <=? c) && (c <=? 13) || (c =? 32) || (c =? 160) || (c =? 5760)
   || (8192 <=? c) && (c <=? 8202) || (c =? 8232) || (c =? 8233)
   || (c =? 8239) || (c =? 8287) || (c =? 12288) || (c =? 65279))%N.

Fixpoint trimStart (s : jsstring) : jsstring :=
  match s with
  | [] => []
  | c :: s' => if is_whitespace c then trimStart s' else s
  end.

Definition trimEnd (s : jsstring) : jsstring := rev (trimStart (rev s)).

Definition trim (s : jsstring) : jsstring := trimEnd (trimStart s).

(** [needle] occurs in [s] ([String.prototype.includes]); used to relate the
    full error texts to the phrases by which they are usually quoted. *)
Fixpoint starts_with (needle s : jsstring) : bool :=
  match needle, s with
  | [], _ => true
  | _ :: _, [] => false
  | a :: needle', b :: s' => (a =? b)%N && starts_with needle' s'
  end.

Fixpoint includes (s needle : jsstring) : bool :=
  starts_with needle s ||
  match s with
  | [] => false
  | _ :: s' => includes s' needle
  end.

(** ** JavaScript values of a parsed JSON body *)

Inductive jsvalue :=
| JUndefined
| JNull
| JBool (b : bool)
| JNumber (q : Q)
| JString (s : jsstring)
| JArray (items : list jsvalue)
| JObject (fields : list (string * jsvalue)).

(** ToBoolean. *)
Definition truthy (v : jsvalue) : bool :=
  match v with
  | JUndefined | JNull => false
  | JBool b => b
  | JNumber q => negb (Qeq_bool q 0)
  | JString s => negb (bool_decide (s = []))
  | JArray _ | JObject _ => true
  end.

Inductive jstype := TUndefined | TObject | TBoolean | TNumber | TString.

Definition typeof (v : jsvalue) : jstype :=
  match v with
  | JUndefined => TUndefined
  | JNull | JArray _ | JObject _ => TObject
  | JBool _ => TBoolean
  | JNumber _ => TNumber
  | JString _ => TString
  end.

Definition is_string (v : jsvalue) : bool :=
  match typeof v with TString => true | _ => false end.

Fixpoint assoc (k : string) (fields : list (string * jsvalue)) : jsvalue :=
  match fields with
  | [] => JUndefined
  | (k', v) :: fields' => if bool_decide (k = k') then v else assoc k fields'
  end.

(** ** Errors and the exception monad *)

Record JsError := {
  err_statusCode : option Z;
  err_status : option Z;
  err_message : option jsstring
}.

Definition TypeError (msg : string) : JsError :=
  {| err_statusCode := None; err_status := None; err_message := Some (lit msg) |}.

(** [new Error(msg)] followed by [err.statusCode = code]. *)
Definition httpError (msg : jsstring) (code : Z) : JsError :=
  {| err_statusCode := Some code; err_status := None; err_message := Some msg |}.

(** An integer in a template literal. *)
Definition decimal (z : Z) : jsstring := lit (NilZero.string_of_int (Z.to_int z)).

(** [RangeError [ERR_HTTP_INVALID_STATUS_CODE]: Invalid status code: <code>],
    which Node throws when the head is written with such a status. *)
Definition invalid_status_code (code : Z) : JsError :=
  {| err_statusCode := None; err_status := None;
     err_message := Some (lit "Invalid status code: " ++ decimal code) |}.

(** [a || b] on a numeric property that may be missing. *)
Definition num_or (a : option Z) (b : Z) : Z :=
  match a with
  | Some z => if z =? 0 then b else z
  | None => b
  end.

(** [a || b] on a string property that may be missing. *)
Definition str_or (a : option jsstring) (b : jsstring) : jsstring :=
  match a with
  | Some ((_ :: _) as s) => s
  | _ => b
  end.

(** ** Upstream data: usage summaries and stream chunks *)

Record Usage := {
  prompt_tokens : option Z;
  completion_tokens : option Z;
  total_tokens : option Z
}.

Record Delta := { delta_content : option jsstring }.
Record Choice := { choice_delta : option Delta }.

(** A chunk of the upstream stream; [chunk_choices] is [None] for a chunk
    without a [choices] property, on which [chunk.choices[0]] throws. *)
Record Chunk := {
  chunk_choices : option (list Choice);
  chunk_usage : option Usage
}.

Record ChatMessage := { role : string; content : jsstring }.

Record ChatCompletionRequest := {
  model : jsstring;
  messages : list ChatMessage;
  max_tokens : Z;
  temperature : Q;
  stream : bool;
  stream_options_include_usage : bool
}.

(** What [openai.chat.completions.create] does with a request: the promise
    rejects, or it resolves to an async iterable that yields [chunks] and
    then either finishes or throws [failure]. *)
Inductive UpstreamResult :=
| CreateRejected (e : JsError)
| Streaming (chunks : list Chunk) (failure : option JsError).

Record Env := { OPENAI_MODEL : option jsstring }.

(** ** The usage accumulator, an object in the heap *)

Record TokenStats := {
  totalRequests : Z;
  promptTokens : Z;
  completionTokens : Z;
  totalTokens : Z
}.

Definition loc := positive.

Global Instance TokenStats_inhabited : Inhabited TokenStats :=
  populate {| totalRequests := 0; promptTokens := 0;
              completionTokens := 0; totalTokens := 0 |}.

(** The [const _tokenStats] binding of the service module. *)
Definition _tokenStats : loc := 1%positive.

(** The heap once the service module is loaded. *)
Definition initial_heap : gmap loc TokenStats :=
  {[ _tokenStats := {| totalRequests := 0; promptTokens := 0;
                       completionTokens := 0; totalTokens := 0 |} ]}.

(** The double nearest to an integer, ties going to the even significand:
    an integer below 2^53 in magnitude is a double; a larger one is rounded
    to a multiple of the unit in the last place of its binade. The overflow
    to [Infinity], from 2^1024 on, is not represented. *)
Definition round_double (z : Z) : Z :=
  let a := Z.abs z in
  if a <? 9007199254740992 then z
  else
    let ulp := 2 ^ (Z.log2 a - 52) in
    let q := a / ulp in
    let r := a mod ulp in
    let q' := if (ulp <? 2 * r) || ((2 * r =? ulp) && Z.odd q) then q + 1 else q in
    Z.sgn z * (q' * ulp).

(** [x + y] on two numbers that hold integers. *)
Definition js_add (x y : Z) : Z := round_double (x + y).

Definition add_usage (u : Usage) (s : TokenStats) : TokenStats :=
  {| totalRequests := js_add (totalRequests s) 1;
     promptTokens := js_add (promptTokens s) (num_or (prompt_tokens u) 0);
     completionTokens :=
       js_add (completionTokens s) (num_or (completion_tokens u) 0);
     totalTokens := js_add (totalTokens s) (num_or (total_tokens u) 0) |}.

Definition _recordUsage (usage : option Usage) (h : gmap loc TokenStats)
  : gmap loc TokenStats :=
  match usage with
  | None => h
  | Some u => alter (add_usage u) _tokenStats h
  end.

(** [{ ..._tokenStats }]: a new object with the same four properties. *)
Definition getTokenStats (h : gmap loc TokenStats) : loc * gmap loc TokenStats :=
  let l := fresh (dom h) in
  (l, <[l := h !!! _tokenStats]> h).

(** ** The Express response object *)

Inductive SsePayload :=
| ChunkEvent (chunk : jsstring)
| DoneEvent (usage : option Usage)
| ErrorEvent (error : jsstring).

Inductive JsonBody :=
| ErrorJson (error : jsstring)
| StatsJson (stats : TokenStats).

Inductive ChannelEvent :=
| EvWrite (payload : SsePayload)
| EvSend (body : JsonBody)
| EvEnd.

Record Response := {
  statusCode : Z;
  headers : gmap string string;
  headersSent : bool;
  channel : list ChannelEvent;
  locals_tokenUsage : option (option Usage)
}.

Record World := {
  heap : gmap loc TokenStats;
  res : Response;
  upstreamCalls : list ChatCompletionRequest
}.

Inductive Outcome (A : Type) :=
| Ret (a : A)
| Throw (e : JsError).
Arguments Ret {A} a.
Arguments Throw {A} e.

Definition M (A : Type) : Type := World -> Outcome A * World.

Definition ret {A} (a : A) : M A := fun w => (Ret a, w).
Definition throw {A} (e : JsError) : M A := fun w => (Throw e, w).

Definition bind {A B} (m : M A) (k : A -> M B) : M B :=
  fun w => match m w with
           | (Ret a, w') => k a w'
           | (Throw e, w') => (Throw e, w')
           end.

Definition try_catch {A} (body : M A) (handler : JsError -> M A) : M A :=
  fun w => match body w with
           | (Ret a, w') => (Ret a, w')
           | (Throw e, w') => handler e w'
           end.

Notation "x <- m ;; k" := (bind m (fun x => k))
  (at level 100, m at next level, right associativity).
Notation "m ;; k" := (bind m (fun _ => k))
  (at level 100, right associativity).

Definition modify_res (f : Response -> Response) : M unit :=
  fun w => (Ret tt, {| heap := heap w; res := f (res w);
                       upstreamCalls := upstreamCalls w |}).

Definition modify_heap (f : gmap loc TokenStats -> gmap loc TokenStats) : M unit :=
  fun w => (Ret tt, {| heap := f (heap w); res := res w;
                       upstreamCalls := upstreamCalls w |}).

Definition get_headersSent : M bool := fun w => (Ret (headersSent (res w)), w).

Definition with_res (w : World) (r : Response) : World :=
  {| heap := heap w; res := r; upstreamCalls := upstreamCalls w |}.

(** [res.setHeader]: Node refuses it once the headers have gone out. *)
Definition res_setHeader (name value : string) : M unit :=
  fun w =>
    let r := res w in
    if headersSent r then
      (Throw (TypeError "Cannot set headers after they are sent to the client"), w)
    else
      (Ret tt, with_res w
         {| statusCode := statusCode r; headers := <[name := value]> (headers r);
            headersSent := false; channel := channel r;
            locals_tokenUsage := locals_tokenUsage r |}).

Definition res_flushHeaders : M unit :=
  modify_res (fun r =>
    {| statusCode := statusCode r; headers := headers r; headersSent := true;
       channel := channel r; locals_tokenUsage := locals_tokenUsage r |}).

Definition res_status (code : Z) : M unit :=
  modify_res (fun r =>
    {| statusCode := code; headers := headers r; headersSent := headersSent r;
       channel := channel r; locals_tokenUsage := locals_tokenUsage r |}).

Definition emit (evs : list ChannelEvent) : M unit :=
  modify_res (fun r =>
    {| statusCode := statusCode r; headers := headers r; headersSent := true;
       channel := channel r ++ evs; locals_tokenUsage := locals_tokenUsage r |}).

(** [res.write(`data: ${JSON.stringify(payload)}\n\n`)]. *)
Definition res_write (payload : SsePayload) : M unit := emit [EvWrite payload].

Definition res_end : M unit := emit [EvEnd].

(** [res.json(body)]: sends the body and ends the response. Express sets
    the content type on the way, which fails like [res.setHeader] once the
    headers have gone out; the value it gives to that header is not
    recorded in [headers]. Node then writes the head, and refuses a status
    outside 100..999 ([ERR_HTTP_INVALID_STATUS_CODE]) before anything is
    sent. *)
Definition res_json (body : JsonBody) : M unit :=
  fun w =>
    if headersSent (res w) then
      (Throw (TypeError "Cannot set headers after they are sent to the client"), w)
    else if (statusCode (res w) <? 100) || (999 <? statusCode (res w)) then
      (Throw (invalid_status_code (statusCode (res w))), w)
    else
      emit [EvSend body; EvEnd] w.

Definition set_locals_tokenUsage (usage : option Usage) : M unit :=
  modify_res (fun r =>
    {| statusCode := statusCode r; headers := headers r;
       headersSent := headersSent r; channel := channel r;
       locals_tokenUsage := Some usage |}).

(** ** src/middleware/error.middleware.js *)

Definition errorMiddleware (err : JsError) : M unit :=
  let statusCode := num_or (err_statusCode err) (num_or (err_status err) 500) in
  res_status statusCode ;;
  res_json (ErrorJson (str_or (err_message err) (lit "Internal server error"))).

(** ** src/services/ai.service.js *)

Section Service.

(** The system prompt, a constant of the module whose text plays no part
    here; [process.env]; and the behaviour of the SDK client. The default
    model is the one of the revision with [gpt-4o-mini]; the other revision
    of the file differs by that name, by the prompt and by the base URL of
    the client only. *)
Variable OWNER_CONTEXT : jsstring.
Variable env : Env.
Variable openai : ChatCompletionRequest -> UpstreamResult.

Definition create (request : ChatCompletionRequest)
  : M (list Chunk * option JsError) :=
  fun w =>
    let w' := {| heap := heap w; res := res w;
                 upstreamCalls := upstreamCalls w ++ [request] |} in
    match openai request with
    | CreateRejected e => (Throw e, w')
    | Streaming chunks failure => (Ret (chunks, failure), w')
    end.

(** What [chunk.choices[0]] throws on a chunk without [choices]. *)
Definition choices_undefined : JsError :=
  TypeError "Cannot read properties of undefined (reading '0')".

(** [chunk.choices[0]?.delta?.content] *)
Definition delta_of (chunk : Chunk) : M (option jsstring) :=
  match chunk_choices chunk with
  | None => throw choices_undefined
  | Some [] => ret None
  | Some (choice :: _) =>
      ret (match choice_delta choice with
           | Some delta => delta_content delta
           | None => None
           end)
  end.

(** The body of [for await (const chunk of stream)], with the variable
    [usage] of the enclosing function threaded through. *)
Fixpoint forward (chunks : list Chunk) (failure : option JsError)
    (usage : option Usage) : M (option Usage) :=
  match chunks with
  | [] =>
      match failure with
      | Some e => throw e
      | None => ret usage
      end
  | chunk :: rest =>
      delta <- delta_of chunk ;;
      match delta with
      | Some ((_ :: _) as fragment) => res_write (ChunkEvent fragment)
      | _ => ret tt
      end ;;
      forward rest failure
        (match chunk_usage chunk with
         | Some u => Some u
         | None => usage
         end)
  end.

(** The object literal passed to [openai.chat.completions.create]. *)
Definition completion_request (userMessage : jsstring) : ChatCompletionRequest :=
  {| model := str_or (OPENAI_MODEL env) (lit "gpt-4o-mini");
     messages := [ {| role := "system"; content := OWNER_CONTEXT |};
                   {| role := "user"; content := userMessage |} ];
     max_tokens := 512;
     temperature := 7 # 10;
     stream := true;
     stream_options_include_usage := true |}.

Definition streamAIReply (userMessage : jsstring) : M (option Usage) :=
  stream <- create (completion_request userMessage) ;;
  usage <- forward (fst stream) (snd stream) None ;;
  res_write (DoneEvent usage) ;;
  res_end ;;
  modify_heap (_recordUsage usage) ;;
  ret usage.

(** ** src/controllers/chat.controller.js *)

Definition msg_no_message : jsstring :=
  lit "Request body must include a " ++ dquote ++ lit "message" ++ dquote
  ++ lit " string.".

Definition msg_blank : jsstring :=
  dquote ++ lit "message" ++ dquote ++ lit " must not be blank.".

Definition msg_too_long : jsstring :=
  dquote ++ lit "message" ++ dquote ++ lit " must be 1000 characters or fewer.".

(** [body.message] on a body that is neither [undefined] nor [null]. *)
Definition message_of (body : jsvalue) : jsvalue :=
  match body with
  | JObject fields => assoc "message" fields
  | _ => JUndefined
  end.

Definition nullish (v : jsvalue) : bool :=
  match v with
  | JUndefined | JNull => true
  | _ => false
  end.

(** What destructuring throws on a body that is [undefined] or [null]. *)
Definition body_undefined (body : jsvalue) : JsError :=
  TypeError
    match body with
    | JNull => "Cannot destructure property 'message' of 'req.body' as it is null."
    | _ => "Cannot destructure property 'message' of 'req.body' as it is undefined."
    end.

(** [const { message } = req.body] *)
Definition destructure_message (body : jsvalue) : M jsvalue :=
  if nullish body then
    throw (body_undefined body)
  else
    ret (message_of body).

(** [message.trim()] *)
Definition call_trim (message : jsvalue) : M jsstring :=
  match message with
  | JString s => ret (trim s)
  | _ => throw (TypeError "message.trim is not a function")
  end.

(** [next(err)]: Express skips to the error handler mounted last in
    server.js, which is [errorMiddleware]. *)
Definition next (err : JsError) : M unit := errorMiddleware err.

Definition handleChat (body : jsvalue) : M unit :=
  try_catch
    (message <- destructure_message body ;;
     if negb (truthy message) || negb (is_string message) then
       next (httpError msg_no_message 400)
     else
       trimmed <- call_trim message ;;
       if (length trimmed =? 0)%nat then
         next (httpError msg_blank 400)
       else if (1000 <? length trimmed)%nat then
         next (httpError msg_too_long 400)
       else
         res_setHeader "Content-Type" "text/event-stream" ;;
         res_setHeader "Cache-Control" "no-cache" ;;
         res_setHeader "Connection" "keep-alive" ;;
         res_setHeader "X-Accel-Buffering" "no" ;;
         res_flushHeaders ;;
         usage <- streamAIReply trimmed ;;
         set_locals_tokenUsage usage)
    (fun err =>
       sent <- get_headersSent ;;
       if sent then
         res_write (ErrorEvent (lit "Stream error occurred.")) ;;
         res_end
       else
         next err).

End Service.

(** ** server.js: GET /api/stats *)

Definition statsRoute : M unit :=
  fun w =>
    let '(l, h) := getTokenStats (heap w) in
    res_json (StatsJson (h !!! l))
      {| heap := h; res := res w; upstreamCalls := upstreamCalls w |}.

(** The world in which a request handler starts: the heap as earlier
    requests left it, and a response whose status is 200, on which earlier
    middleware (CORS, rate limiter) may have set [hdrs], and on which
    nothing has been sent. *)
Definition request_world (h : gmap loc TokenStats) (hdrs : gmap string string)
  : World :=
  {| heap := h;
     res := {| statusCode := 200; headers := hdrs; headersSent := false;
               channel := []; locals_tokenUsage := None |};
     upstreamCalls := [] |}.

(** * The rest of the application *)

(** ** More of JavaScript *)

(** One more code unit in front of the first part of a split. *)
Definition cons_first (c : N) (parts : list jsstring) : list jsstring :=
  match parts with
  | part :: parts => (c :: part) :: parts
  | [] => [[c]]
  end.

(** [s.split(",")] *)
Fixpoint split_comma (s : jsstring) : list jsstring :=
  match s with
  | [] => [[]]
  | c :: rest =>
      if (c =? 44)%N then [] :: split_comma rest
      else cons_first c (split_comma rest)
  end.

(** [s.split("\n\n")]: the separators are found from the left and do not
    overlap. *)
Fixpoint split_blank (s : jsstring) : list jsstring :=
  match s with
  | [] => [[]]
  | c :: rest =>
      match rest with
      | d :: rest' =>
          if ((c =? 10) && (d =? 10))%N then [] :: split_blank rest'
          else cons_first c (split_blank rest)
      | [] => [[c]]
      end
  end.

(** [v[k]]: it throws on [null] and [undefined]. *)
Definition prop (k : string) (v : jsvalue) : Outcome jsvalue :=
  match v with
  | JUndefined | JNull =>
      Throw (TypeError "Cannot read properties of null")
  | JObject fields => Ret (assoc k fields)
  | _ => Ret JUndefined
  end.

(** ** src/config/cors.config.js *)

Module Cors.

Definition allowedOrigins (FRONTEND_URL : option jsstring) : list jsstring :=
  map trim (split_comma (str_or FRONTEND_URL (lit "http://localhost:5173"))).

(** [new Error(`CORS: origin '${origin}' is not allowed`)] *)
Definition not_allowed (origin : jsstring) : JsError :=
  {| err_statusCode := None; err_status := None;
     err_message := Some (lit "CORS: origin '" ++ origin ++ lit "' is not allowed") |}.

(** [corsOptions.origin]: [Ret true] stands for [callback(null, true)] and
    [Throw e] for [callback(e)]; an absent [Origin] header is [None]. *)
Definition origin (FRONTEND_URL : option jsstring) (origin : option jsstring)
  : Outcome bool :=
  match origin with
  | None | Some [] => Ret true
  | Some o =>
      if bool_decide (o ∈ allowedOrigins FRONTEND_URL) then Ret true
      else Throw (not_allowed o)
  end.

End Cors.

(** ** src/middleware/logger.middleware.js *)

Module Logger.

(** A property of the usage object in a template literal. *)
Definition show (count : option Z) : jsstring :=
  match count with
  | Some z => decimal z
  | None => lit "undefined"
  end.

Definition tokenStr (usage : option (option Usage)) : jsstring :=
  match usage with
  | Some (Some u) =>
      lit " | tokens: prompt=" ++ show (prompt_tokens u)
      ++ lit " completion=" ++ show (completion_tokens u)
      ++ lit " total=" ++ show (total_tokens u)
  | _ => []
  end.

(** [`\x1b[${code}m${status}\x1b[0m`] *)
Definition coloured (code : Z) (status : Z) : jsstring :=
  [27%N] ++ lit "[" ++ decimal code ++ lit "m" ++ decimal status
  ++ [27%N] ++ lit "[0m".

Definition statusLabel (status : Z) : jsstring :=
  if 500 <=? status then coloured 31 status
  else if 400 <=? status then coloured 33 status
  else if 300 <=? status then coloured 36 status
  else coloured 32 status.

(** The line that the [finish] listener prints, for a request with the
    given method and path, at time [ts] and after [duration] ms. *)
Definition log_line (ts : jsstring) (duration : Z) (method path : jsstring)
    (r : Response) : jsstring :=
  lit "[" ++ ts ++ lit "] " ++ method ++ lit " " ++ path ++ lit " "
  ++ statusLabel (statusCode r) ++ lit " " ++ decimal duration ++ lit "ms"
  ++ tokenStr (locals_tokenUsage r).

End Logger.

(** ** src/client/chatbox.js *)

Module ChatBox.

Record Bubble := { role : string; textContent : jsstring; isError : bool }.

(** The widget: the bubbles of [#cb-messages], the value of the input and
    the [isStreaming] flag. The cursor, the scrolling, the focus and the
    state of the send button are left out. *)
Record Widget := {
  bubbles : list Bubble;
  input_value : jsstring;
  isStreaming : bool
}.

(** What [fetch] and the reader of the body do: [fetch] rejects; the
    response is not [ok]; or it is, and the reader yields [pieces], as the
    decoder turns them into text, and then is done or, if [broken],
    rejects. *)
Inductive FetchResult :=
| FetchRejected
| NotOk (error : option jsstring)
| Ok (pieces : list jsstring) (broken : bool).

Definition sorry : jsstring := lit "Sorry, something went wrong. Please try again.".

Section Widget.

(** [JSON.parse], [None] when it throws, and the conversion to a string of
    a value that is not one. *)
Variable JSON_parse : jsstring -> option jsvalue.
Variable ToString : jsvalue -> jsstring.

Definition to_text (v : jsvalue) : jsstring :=
  match v with
  | JString s => s
  | _ => ToString v
  end.

(** The body of [for (const part of parts)], with [fullText] threaded
    through. *)
Fixpoint handle_parts (parts : list jsstring) (fullText : jsstring)
  : Outcome jsstring :=
  match parts with
  | [] => Ret fullText
  | part :: rest =>
      if negb (starts_with (lit "data: ") part) then handle_parts rest fullText
      else
        match JSON_parse (drop 6 part) with
        | None => handle_parts rest fullText
        | Some payload =>
            match prop "chunk" payload with
            | Throw e => Throw e
            | Ret chunk =>
                let fullText :=
                  if truthy chunk then fullText ++ to_text chunk else fullText in
                match prop "error" payload with
                | Throw e => Throw e
                | Ret error =>
                    if truthy error then
                      Throw {| err_statusCode := None; err_status := None;
                               err_message := Some (to_text error) |}
                    else handle_parts rest fullText
                end
            end
        end
  end.

(** The [while (true)] loop over the reads. *)
Fixpoint read_loop (pieces : list jsstring) (broken : bool)
    (buffer fullText : jsstring) : Outcome jsstring :=
  match pieces with
  | [] =>
      if broken then Throw (TypeError "network error") else Ret fullText
  | value :: rest =>
      let parts := split_blank (buffer ++ value) in
      match handle_parts (removelast parts) fullText with
      | Throw e => Throw e
      | Ret fullText => read_loop rest broken (default [] (last parts)) fullText
      end
  end.

(** The [try] block. *)
Definition receive (response : FetchResult) : Outcome jsstring :=
  match response with
  | FetchRejected => Throw (TypeError "Failed to fetch")
  | NotOk error =>
      Throw {| err_statusCode := None; err_status := None;
               err_message := Some (str_or error (lit "Request failed.")) |}
  | Ok pieces broken => read_loop pieces broken [] []
  end.

(** [sendMessage], with the messages it posts to [/api/chat]. *)
Definition sendMessage (fetch : jsstring -> FetchResult) (w : Widget)
  : Widget * list jsstring :=
  let text := trim (input_value w) in
  if bool_decide (text = []) || isStreaming w then (w, [])
  else
    let assistantBubble :=
      match receive (fetch text) with
      | Ret fullText =>
          {| role := "assistant"; textContent := fullText; isError := false |}
      | Throw _ =>
          {| role := "assistant"; textContent := sorry; isError := true |}
      end in
    ({| bubbles := bubbles w
                   ++ [ {| role := "user"; textContent := text; isError := false |};
                        assistantBubble ];
        input_value := [];
        isStreaming := false |},
     [text]).

End Widget.

End ChatBox.

(** ** The wire between [res.write] and the reader *)

(** The text that the writes of a channel put on the wire, given what
    [JSON.stringify] makes of a payload. *)
Definition wire (JSON_stringify : SsePayload -> jsstring)
    (evs : list ChannelEvent) : jsstring :=
  concat (map (fun ev =>
                 match ev with
                 | EvWrite payload =>
                     lit "data: " ++ JSON_stringify payload ++ [10; 10]%N
                 | _ => []
                 end) evs).

(** The properties of a payload that the widget reads. *)
Definition chunk_of (payload : SsePayload) : jsvalue :=
  match payload with
  | ChunkEvent chunk => JString chunk
  | _ => JUndefined
  end.

Definition error_of (payload : SsePayload) : jsvalue :=
  match payload with
  | ErrorEvent error => JString error
  | _ => JUndefined
  end.

(** A stand-in for JSON, for the sample runs: a tag, then the code units of
    the string moved out of the way of the line feed. *)
Definition toy_stringify (payload : SsePayload) : jsstring :=
  match payload with
  | ChunkEvent chunk => 67%N :: map (fun c => c + 11)%N chunk
  | DoneEvent _ => [68%N]
  | ErrorEvent error => 69%N :: map (fun c => c + 11)%N error
  end.

Definition toy_parse (s : jsstring) : option jsvalue :=
  match s with
  | 67%N :: rest => Some (JObject [("chunk", JString (map (fun c => c - 11)%N rest))])
  | 68%N :: _ => Some (JObject [("done", JBool true)])
  | 69%N :: rest => Some (JObject [("error", JString (map (fun c => c - 11)%N rest))])
  | _ => None
  end.

(** * Vocabulary of the statements *)

Definition all_whitespace (s : jsstring) : Prop :=
  Forall (fun c => is_whitespace c = true) s.

(** The non-empty text fragment a chunk carries, if it carries one. *)
Definition fragment_of (chunk : Chunk) : option jsstring :=
  match chunk_choices chunk with
  | Some (choice :: _) =>
      match choice_delta choice with
      | Some delta =>
          match delta_content delta with
          | Some ((_ :: _) as fragment) => Some fragment
          | _ => None
          end
      | None => None
      end
  | _ => None
  end.

(** The non-empty fragments of a stream, in arrival order. *)
Definition fragments (chunks : list Chunk) : list jsstring :=
  omap fragment_of chunks.

(** The usage summary a stream supplies: the last one seen, [usage] if none. *)
Fixpoint captured_usage (chunks : list Chunk) (usage : option Usage)
  : option Usage :=
  match chunks with
  | [] => usage
  | chunk :: rest =>
      captured_usage rest
        (match chunk_usage chunk with Some u => Some u | None => usage end)
  end.

(** The error that interrupts the consumption of a stream, with the chunks
    consumed before it; [None] when the stream is consumed to its end. *)
Fixpoint stream_error (chunks : list Chunk) (failure : option JsError)
  : option (JsError * list Chunk) :=
  match chunks with
  | [] =>
      match failure with
      | Some e => Some (e, [])
      | None => None
      end
  | chunk :: rest =>
      match chunk_choices chunk with
      | None => Some (choices_undefined, [])
      | Some _ =>
          match stream_error rest failure with
          | Some (e, consumed) => Some (e, chunk :: consumed)
          | None => None
          end
      end
  end.

Definition chunk_frames (l : list jsstring) : list ChannelEvent :=
  map (fun fragment => EvWrite (ChunkEvent fragment)) l.

Definition error_frame : ChannelEvent :=
  EvWrite (ErrorEvent (lit "Stream error occurred.")).

Definition sse_headers (hdrs : gmap string string) : gmap string string :=
  <["X-Accel-Buffering" := "no"]>
    (<["Connection" := "keep-alive"]>
       (<["Cache-Control" := "no-cache"]>
          (<["Content-Type" := "text/event-stream"]> hdrs))).

(** A world whose response has flushed the event-stream headers. *)
Definition streaming_world (h : gmap loc TokenStats) (hdrs : gmap string string)
    (calls : list ChatCompletionRequest) (evs : list ChannelEvent)
    (locals : option (option Usage)) : World :=
  {| heap := h;
     res := {| statusCode := 200; headers := sse_headers hdrs;
               headersSent := true; channel := evs;
               locals_tokenUsage := locals |};
     upstreamCalls := calls |}.

(** The world the error middleware leaves when it reports [e] on a response
    on which nothing was sent. *)
Definition error_world (h : gmap loc TokenStats) (hdrs : gmap string string)
    (e : JsError) : World :=
  {| heap := h;
     res := {| statusCode := num_or (err_statusCode e) (num_or (err_status e) 500);
               headers := hdrs;
               headersSent := true;
               channel := [EvSend (ErrorJson (str_or (err_message e)
                                     (lit "Internal server error"))); EvEnd];
               locals_tokenUsage := None |};
     upstreamCalls := [] |}.

(** The checks of the controller as a function of the body: the error
    raised before anything is sent, or the trimmed message handed on. *)
Definition validation (body : jsvalue) : JsError + jsstring :=
  if nullish body then inl (body_undefined body)
  else
    match message_of body with
    | JString ((_ :: _) as s) =>
        match trim s with
        | [] => inl (httpError msg_blank 400)
        | _ :: _ =>
            if (1000 <? length (trim s))%nat then inl (httpError msg_too_long 400)
            else inr (trim s)
        end
    | _ => inl (httpError msg_no_message 400)
    end.

(** The world a relay of [trimmed] leaves. *)
Definition relay_world (OWNER_CONTEXT : jsstring) (env : Env)
    (openai : ChatCompletionRequest -> UpstreamResult)
    (h : gmap loc TokenStats) (hdrs : gmap string string)
    (trimmed : jsstring) : World :=
  let request := completion_request OWNER_CONTEXT env trimmed in
  match openai request with
  | CreateRejected _ =>
      streaming_world h hdrs [request] [error_frame; EvEnd] None
  | Streaming chunks failure =>
      match stream_error chunks failure with
      | Some (_, consumed) =>
          streaming_world h hdrs [request]
            (chunk_frames (fragments consumed) ++ [error_frame; EvEnd]) None
      | None =>
          let usage := captured_usage chunks None in
          streaming_world (_recordUsage usage h) hdrs [request]
            (chunk_frames (fragments chunks) ++ [EvWrite (DoneEvent usage); EvEnd])
            (Some usage)
      end
  end.

(** What happens to the heap of counters in the life of the process: a
    summary, present or absent, is recorded, or a snapshot is taken. *)
Inductive AccumulatorOp :=
| OpRecord (summary : option (Z * Z * Z))
| OpSnapshot.

Definition Zsum (l : list Z) : Z := foldr Z.add 0 l.

(** The object that carries the summary (p, c, t). *)
Definition usage_summary (p c t : Z) : Usage :=
  {| prompt_tokens := Some p; completion_tokens := Some c; total_tokens := Some t |}.

Definition summary_of (x : Z * Z * Z) : Usage := usage_summary x.1.1 x.1.2 x.2.

Definition run_op (op : AccumulatorOp) (h : gmap loc TokenStats)
  : gmap loc TokenStats :=
  match op with
  | OpRecord summary => _recordUsage (summary_of <$> summary) h
  | OpSnapshot => (getTokenStats h).2
  end.

Definition run_ops (ops : list AccumulatorOp) (h : gmap loc TokenStats)
  : gmap loc TokenStats :=
  foldl (fun h op => run_op op h) h ops.

(** The summaries recorded by a sequence of operations, in order. *)
Definition summaries_of (ops : list AccumulatorOp) : list (Z * Z * Z) :=
  omap (fun op => match op with OpRecord summary => summary | OpSnapshot => None end)
       ops.

(** A usage summary as the data model has it: three counts that are not
    negative. *)
Definition well_formed_usage (u : Usage) : Prop :=
  0 <= num_or (prompt_tokens u) 0 /\
  0 <= num_or (completion_tokens u) 0 /\
  0 <= num_or (total_tokens u) 0.

(** The three counts that [_recordUsage] reads from a usage object. *)
Definition usage_counts (u : Usage) : Z * Z * Z :=
  (num_or (prompt_tokens u) 0, num_or (completion_tokens u) 0,
   num_or (total_tokens u) 0).

Definition nonneg_counts (x : Z * Z * Z) : Prop :=
  0 <= x.1.1 /\ 0 <= x.1.2 /\ 0 <= x.2.

(** The counters [s] with the summaries [l] added to them in exact
    arithmetic. *)
Definition plus_counts (s : TokenStats) (l : list (Z * Z * Z)) : TokenStats :=
  {| totalRequests := totalRequests s + Z.of_nat (length l);
     promptTokens := promptTokens s + Zsum (map (fun x => x.1.1) l);
     completionTokens := completionTokens s + Zsum (map (fun x => x.1.2) l);
     totalTokens := totalTokens s + Zsum (map snd l) |}.

Definition nonneg_stats (s : TokenStats) : Prop :=
  0 <= totalRequests s /\ 0 <= promptTokens s /\
  0 <= completionTokens s /\ 0 <= totalTokens s.

Definition stats_within (bound : Z) (s : TokenStats) : Prop :=
  totalRequests s <= bound /\ promptTokens s <= bound /\
  completionTokens s <= bound /\ totalTokens s <= bound.

(** 2^53: up to it every non-negative integer is a double, and the sum of
    two of them that does not exceed it is exact. *)
Definition exact_limit : Z := 9007199254740992.

(** [Number.MAX_VALUE], the largest double: (2^53 - 1) * 2^971. A sum that
    does not exceed it does not overflow. *)
Definition max_double : Z := (2 ^ 53 - 1) * 2 ^ 971.

(** A non-negative integer that a JavaScript number can hold. *)
Definition double_count (z : Z) : Prop := 0 <= z /\ round_double z = z.

Definition double_stats (s : TokenStats) : Prop :=
  double_count (totalRequests s) /\ double_count (promptTokens s) /\
  double_count (completionTokens s) /\ double_count (totalTokens s).

Definition double_usage (u : Usage) : Prop :=
  double_count (num_or (prompt_tokens u) 0) /\
  double_count (num_or (completion_tokens u) 0) /\
  double_count (num_or (total_tokens u) 0).

(** The counts of the usage objects that a sequence of [_recordUsage] calls
    is given, the absent ones left out. *)
Definition recorded_counts (l : list (option Usage)) : list (Z * Z * Z) :=
  usage_counts <$> omap id l.

(** The response is a JSON error with status [code] and text [msg], and
    nothing of a stream has begun: the JSON body is all that went on the
    channel, and no upstream call was made. *)
Definition rejected (w : World) (code : Z) (msg : jsstring) : Prop :=
  statusCode (res w) = code /\
  channel (res w) = [EvSend (ErrorJson msg); EvEnd] /\
  upstreamCalls w = [].

(** The response is an event stream: status 200 and the event-stream
    headers, flushed. *)
Definition event_stream (w : World) : Prop :=
  statusCode (res w) = 200 /\
  headersSent (res w) = true /\
  headers (res w) !! "Content-Type" = Some "text/event-stream".

(** The ways a chat request fails: before the headers are flushed, when the
    upstream call is opened, or while the stream is consumed. *)
Inductive relay_fails (OWNER_CONTEXT : jsstring) (env : Env)
    (openai : ChatCompletionRequest -> UpstreamResult) (body : jsvalue) : Prop :=
| fails_validation (e : JsError) :
    validation body = inl e ->
    relay_fails OWNER_CONTEXT env openai body
| fails_at_create (trimmed : jsstring) (e : JsError) :
    validation body = inr trimmed ->
    openai (completion_request OWNER_CONTEXT env trimmed) = CreateRejected e ->
    relay_fails OWNER_CONTEXT env openai body
| fails_mid_stream (trimmed : jsstring) (chunks consumed : list Chunk)
    (failure : option JsError) (e : JsError) :
    validation body = inr trimmed ->
    openai (completion_request OWNER_CONTEXT env trimmed) = Streaming chunks failure ->
    stream_error chunks failure = Some (e, consumed) ->
    relay_fails OWNER_CONTEXT env openai body.

(** The upstream fails on the request for [trimmed]: the call is rejected,
    or the stream it opens is interrupted. *)
Definition upstream_fails (OWNER_CONTEXT : jsstring) (env : Env)
    (openai : ChatCompletionRequest -> UpstreamResult) (trimmed : jsstring)
  : Prop :=
  (exists e, openai (completion_request OWNER_CONTEXT env trimmed) = CreateRejected e) \/
  (exists chunks failure e consumed,
     openai (completion_request OWNER_CONTEXT env trimmed) = Streaming chunks failure /\
     stream_error chunks failure = Some (e, consumed)).

(** [es.join(",")] *)
Definition join_comma (es : list jsstring) : jsstring :=
  match es with
  | [] => []
  | e :: es' => e ++ concat (map (fun x => 44%N :: x) es')
  end.

(** The three counts of a usage object add up. *)
Definition consistent_usage (u : Usage) : Prop :=
  num_or (total_tokens u) 0 =
  num_or (prompt_tokens u) 0 + num_or (completion_tokens u) 0.

Definition consistent_stats (s : TokenStats) : Prop :=
  totalTokens s = promptTokens s + completionTokens s.

(** A string neither starts nor ends with white space. *)
Definition trimmed_ends (s : jsstring) : Prop :=
  match s with
  | [] => True
  | c :: _ => is_whitespace c = false /\
              exists c', last s = Some c' /\ is_whitespace c' = false
  end.

(** The payloads written on a channel, in order. *)
Definition payloads (evs : list ChannelEvent) : list SsePayload :=
  omap (fun ev => match ev with EvWrite payload => Some payload | _ => None end)
       evs.

(** ** Sample inputs *)

(** [n] times the letter a. *)
Definition long_message (n : nat) : jsstring := replicate n 97%N.

Definition sample_context : jsstring := lit "You are an AI assistant".

Definition sample_env : Env := {| OPENAI_MODEL := None |}.

Definition body_of (message : jsvalue) : jsvalue := JObject [("message", message)].

Definition text_chunk (fragment : jsstring) : Chunk :=
  {| chunk_choices :=
       Some [ {| choice_delta := Some {| delta_content := Some fragment |} |} ];
     chunk_usage := None |}.

Definition usage_chunk (u : Usage) : Chunk :=
  {| chunk_choices := Some []; chunk_usage := Some u |}.

(** The upstream of the scenario: "Hi", an empty fragment, " there", then
    the usage summary (5, 3, 8). *)
Definition sample_stream : list Chunk :=
  [ text_chunk (lit "Hi"); text_chunk []; text_chunk (lit " there");
    usage_chunk (usage_summary 5 3 8) ].

Definition sample_upstream (_ : ChatCompletionRequest) : UpstreamResult :=
  Streaming sample_stream None.



(** An upstream that yields "Hi" and then breaks. *)
Definition breaking_upstream (_ : ChatCompletionRequest) : UpstreamResult :=
  Streaming [text_chunk (lit "Hi")]
    (Some {| err_statusCode := None; err_status := None;
             err_message := Some (lit "socket hang up") |}).

(** * Properties *)

(** ** Trimming *)

Lemma trimStart_length (s : jsstring) :
  (length (trimStart s) <= length s)%nat.
Proof.
  induction s as [|c s IH]; simpl; [lia|].
  destruct (is_whitespace c); simpl; lia.
Qed.

Lemma trim_length (s : jsstring) : (length (trim s) <= length s)%nat.
Proof.
  unfold trim, trimEnd. rewrite length_rev.
  etransitivity; [apply trimStart_length|].
  rewrite length_rev. apply trimStart_length.
Qed.

Lemma trimStart_whitespace (ws s : jsstring) :
  all_whitespace ws -> trimStart (ws ++ s) = trimStart s.
Proof.
  induction 1 as [|c ws Hc _ IH]; simpl; [done|]. by rewrite Hc.
Qed.

Lemma trimStart_all_whitespace (ws : jsstring) :
  all_whitespace ws -> trimStart ws = [].
Proof.
  intros H. rewrite <- (app_nil_r ws). by rewrite trimStart_whitespace.
Qed.

(** Leading trimming either consumes all of [s] or leaves what follows it
    untouched. *)
Lemma trimStart_app (s t : jsstring) :
  trimStart (s ++ t) =
  match trimStart s with
  | [] => trimStart t
  | _ :: _ => trimStart s ++ t
  end.
Proof.
  induction s as [|c s IH]; simpl; [done|].
  destruct (is_whitespace c); [exact IH | done].
Qed.

Lemma all_whitespace_rev (ws : jsstring) :
  all_whitespace ws -> all_whitespace (rev ws).
Proof. unfold all_whitespace. intros H. by apply Forall_rev. Qed.

Lemma trimEnd_whitespace (s ws : jsstring) :
  all_whitespace ws -> trimEnd (s ++ ws) = trimEnd s.
Proof.
  intros H. unfold trimEnd. rewrite rev_app_distr.
  by rewrite trimStart_whitespace by by apply all_whitespace_rev.
Qed.

(** Surrounding white space does not change the trimmed string. *)
Lemma trim_surrounded (ws1 s ws2 : jsstring) :
  all_whitespace ws1 -> all_whitespace ws2 ->
  trim (ws1 ++ s ++ ws2) = trim s.
Proof.
  intros H1 H2. unfold trim.
  rewrite trimStart_whitespace by done.
  rewrite trimStart_app.
  destruct (trimStart s) as [|c t] eqn:E.
  - by rewrite trimStart_all_whitespace.
  - by rewrite trimEnd_whitespace.
Qed.

Lemma trim_all_whitespace (ws : jsstring) : all_whitespace ws -> trim ws = [].
Proof. intros H. unfold trim. by rewrite trimStart_all_whitespace. Qed.

Lemma trim_nonempty (s : jsstring) : trim s <> [] -> s <> [].
Proof. intros H ->. by apply H. Qed.

Lemma trimStart_nil_inv (s : jsstring) : trimStart s = [] -> all_whitespace s.
Proof.
  induction s as [|c s IH]; simpl; [constructor|].
  destruct (is_whitespace c) eqn:Hc; [|done].
  intros H. constructor; [done | by apply IH].
Qed.

Lemma trimStart_head (s t : jsstring) (c : N) :
  trimStart s = c :: t -> is_whitespace c = false.
Proof.
  induction s as [|c' s IH]; simpl; [done|].
  destruct (is_whitespace c') eqn:Hc; [done|]. by intros [= <- _].
Qed.

(** The trimmed form is empty exactly for the strings made of white space,
    the empty string among them. *)
Lemma trim_empty_iff (s : jsstring) : trim s = [] <-> all_whitespace s.
Proof.
  split; [|apply trim_all_whitespace].
  unfold trim, trimEnd. intros H.
  apply (f_equal (@rev N)) in H. rewrite rev_involutive in H. simpl in H.
  apply trimStart_nil_inv, all_whitespace_rev in H.
  rewrite rev_involutive in H.
  destruct (trimStart s) as [|c t] eqn:E; [by apply trimStart_nil_inv|].
  apply trimStart_head in E. inversion H; congruence.
Qed.

(** ** The forwarding loop *)

Lemma chunk_frames_app (l1 l2 : list jsstring) :
  chunk_frames (l1 ++ l2) = chunk_frames l1 ++ chunk_frames l2.
Proof. apply map_app. Qed.

Lemma length_chunk_frames (l : list jsstring) :
  length (chunk_frames l) = length l.
Proof. apply length_map. Qed.

Lemma fragments_cons (chunk : Chunk) (rest : list Chunk) :
  fragments (chunk :: rest) = fragments [chunk] ++ fragments rest.
Proof. unfold fragments. simpl. by destruct (fragment_of chunk). Qed.

(** One turn of the loop on a chunk that has [choices]: the frame of its
    fragment, if it has one, is appended to the channel. *)
Lemma forward_step (chunk : Chunk) (choices : list Choice)
    (rest : list Chunk) (failure : option JsError) (usage : option Usage)
    h hdrs calls evs :
  chunk_choices chunk = Some choices ->
  forward (chunk :: rest) failure usage (streaming_world h hdrs calls evs None) =
  forward rest failure
    (match chunk_usage chunk with Some u => Some u | None => usage end)
    (streaming_world h hdrs calls
       (evs ++ chunk_frames (fragments [chunk])) None).
Proof.
  intros Hc. unfold fragments, fragment_of. simpl.
  unfold bind at 1. unfold delta_of. rewrite Hc.
  destruct choices as [|choice ?]; simpl.
  { unfold bind, ret; simpl. by rewrite app_nil_r. }
  destruct (choice_delta choice) as [delta|]; simpl.
  2:{ unfold bind, ret; simpl. by rewrite app_nil_r. }
  destruct (delta_content delta) as [[|c fragment]|]; simpl;
    unfold bind, ret; simpl; by rewrite ?app_nil_r.
Qed.

Lemma forward_run (chunks : list Chunk) (failure : option JsError)
    (usage : option Usage) h hdrs calls evs :
  forward chunks failure usage (streaming_world h hdrs calls evs None) =
  match stream_error chunks failure with
  | Some (e, consumed) =>
      (Throw e,
       streaming_world h hdrs calls (evs ++ chunk_frames (fragments consumed)) None)
  | None =>
      (Ret (captured_usage chunks usage),
       streaming_world h hdrs calls (evs ++ chunk_frames (fragments chunks)) None)
  end.
Proof.
  revert usage evs.
  induction chunks as [|chunk rest IH]; intros usage evs.
  - simpl. destruct failure; simpl; unfold throw, ret; by rewrite app_nil_r.
  - destruct (chunk_choices chunk) as [choices|] eqn:Hc.
    + rewrite (forward_step _ choices) by done. rewrite IH.
      simpl stream_error. rewrite Hc.
      destruct (stream_error rest failure) as [[e consumed]|];
        simpl captured_usage;
        by rewrite <- app_assoc, <- chunk_frames_app, <- fragments_cons.
    + simpl. unfold bind at 1. unfold delta_of. rewrite Hc. simpl.
      by rewrite app_nil_r.
Qed.

(** ** The relay and the controller, run from a fresh response *)

Section Run.

Variable OWNER_CONTEXT : jsstring.
Variable env : Env.
Variable openai : ChatCompletionRequest -> UpstreamResult.

Lemma streamAIReply_run (userMessage : jsstring) h hdrs :
  streamAIReply OWNER_CONTEXT env openai userMessage
    (streaming_world h hdrs [] [] None) =
  let request := completion_request OWNER_CONTEXT env userMessage in
  match openai request with
  | CreateRejected e => (Throw e, streaming_world h hdrs [request] [] None)
  | Streaming chunks failure =>
      match stream_error chunks failure with
      | Some (e, consumed) =>
          (Throw e,
           streaming_world h hdrs [request] (chunk_frames (fragments consumed)) None)
      | None =>
          let usage := captured_usage chunks None in
          (Ret usage,
           streaming_world (_recordUsage usage h) hdrs [request]
             (chunk_frames (fragments chunks) ++ [EvWrite (DoneEvent usage); EvEnd])
             None)
      end
  end.
Proof.
  unfold streamAIReply. unfold bind at 1. unfold create. simpl.
  destruct (openai _) as [e|chunks failure]; [done|].
  unfold bind at 1. simpl.
  change {| heap := h; res := _; upstreamCalls := _ |}
    with (streaming_world h hdrs [completion_request OWNER_CONTEXT env userMessage]
            [] None).
  rewrite forward_run.
  destruct (stream_error chunks failure) as [[e consumed]|]; [done|].
  unfold bind, ret; simpl. unfold streaming_world. simpl.
  by rewrite <- app_assoc.
Qed.

Lemma errorMiddleware_run (e : JsError) h hdrs :
  100 <= num_or (err_statusCode e) (num_or (err_status e) 500) <= 999 ->
  errorMiddleware e (request_world h hdrs) = (Ret tt, error_world h hdrs e).
Proof.
  intros [Hlo Hhi]. unfold errorMiddleware, bind, res_status, modify_res, res_json.
  cbn [request_world res headersSent statusCode fst snd].
  replace (_ <? 100) with false by (symmetry; apply Z.ltb_ge; lia).
  replace (999 <? _) with false by (symmetry; apply Z.ltb_ge; lia).
  reflexivity.
Qed.

Lemma handleChat_accepts (body : jsvalue) (trimmed : jsstring) h hdrs :
  validation body = inr trimmed ->
  handleChat OWNER_CONTEXT env openai body (request_world h hdrs) =
  (Ret tt, relay_world OWNER_CONTEXT env openai h hdrs trimmed).
Proof.
  unfold validation, handleChat, try_catch, destructure_message.
  destruct (nullish body) eqn:Hn; [done|].
  unfold bind at 1. unfold ret at 1.
  destruct (message_of body) as [| | | |[|c s]| |]; try done.
  simpl truthy. simpl is_string. simpl orb. cbv iota.
  unfold bind at 1. unfold call_trim, ret at 1.
  destruct (trim (c :: s)) as [|c' t] eqn:Ht; [done|].
  change (length (c' :: t) =? 0)%nat with false. cbv iota.
  destruct (1000 <? length (c' :: t))%nat eqn:Hlen; [done|].
  intros [= <-].
  do 5 (unfold bind at 1; simpl).
  change {| heap := h; res := _; upstreamCalls := _ |}
    with (streaming_world h hdrs [] [] None).
  unfold bind at 1. rewrite streamAIReply_run. unfold relay_world. simpl.
  destruct (openai _) as [e|chunks failure]; [done|].
  destruct (stream_error chunks failure) as [[e consumed]|]; [|done].
  unfold bind, get_headersSent, res_write, res_end, emit, modify_res,
    streaming_world.
  cbn [res headersSent heap upstreamCalls channel statusCode headers
       locals_tokenUsage fst snd].
  by rewrite <- app_assoc.
Qed.

Lemma handleChat_rejects (body : jsvalue) (e : JsError) h hdrs :
  validation body = inl e ->
  handleChat OWNER_CONTEXT env openai body (request_world h hdrs) =
  (Ret tt, error_world h hdrs e).
Proof.
  unfold validation, handleChat, try_catch, destructure_message.
  destruct (nullish body) eqn:Hn.
  { intros [= <-]. reflexivity. }
  unfold bind at 1. unfold ret at 1.
  destruct (message_of body) as [| | | |[|c s]| |];
    cbn [truthy is_string typeof negb]; rewrite ?orb_true_r;
    try (intros [= <-]; reflexivity).
  simpl orb. cbv iota.
  unfold bind at 1. unfold call_trim, ret at 1.
  destruct (trim (c :: s)) as [|c' t] eqn:Ht.
  { intros [= <-]. reflexivity. }
  change (length (c' :: t) =? 0)%nat with false. cbv iota.
  destruct (1000 <? length (c' :: t))%nat eqn:Hlen; [|done].
  intros [= <-]. reflexivity.
Qed.

End Run.

(** ** Links between the vocabulary and the primitive conditions *)

Lemma validation_accepts (body : jsvalue) (s : jsstring) :
  nullish body = false ->
  message_of body = JString s ->
  trim s <> [] ->
  (length (trim s) <= 1000)%nat ->
  validation body = inr (trim s).
Proof.
  intros Hn Hm Ht Hlen. unfold validation. rewrite Hn, Hm.
  destruct s as [|c s]; [by destruct Ht|].
  destruct (trim (c :: s)) as [|c' t] eqn:E; [done|].
  replace (1000 <? length (c' :: t))%nat with false; [done|].
  symmetry. apply Nat.ltb_ge. exact Hlen.
Qed.

Lemma stream_error_None (chunks : list Chunk) :
  Forall (fun chunk => chunk_choices chunk <> None) chunks ->
  stream_error chunks None = None.
Proof.
  induction 1 as [|chunk rest Hc _ IH]; simpl; [done|].
  destruct (chunk_choices chunk); [|done]. by rewrite IH.
Qed.

Lemma stream_error_None_inv (chunks : list Chunk) (failure : option JsError) :
  stream_error chunks failure = None ->
  failure = None /\ Forall (fun chunk => chunk_choices chunk <> None) chunks.
Proof.
  induction chunks as [|chunk rest IH]; simpl.
  - destruct failure; [done|]. by split.
  - destruct (chunk_choices chunk) eqn:Hc; [|done].
    destruct (stream_error rest failure) as [[e consumed]|]; [done|].
    intros _. destruct IH as [-> Hrest]; [done|].
    split; [done|]. constructor; [by rewrite Hc | done].
Qed.

(** The chunks consumed before an error are a prefix of the stream. *)
Lemma stream_error_prefix (chunks consumed : list Chunk)
    (failure : option JsError) (e : JsError) :
  stream_error chunks failure = Some (e, consumed) ->
  consumed `prefix_of` chunks.
Proof.
  revert consumed.
  induction chunks as [|chunk rest IH]; intros consumed; simpl.
  - destruct failure; [|done]. intros [= _ <-]. done.
  - destruct (chunk_choices chunk); [|intros [= _ <-]; apply prefix_nil].
    destruct (stream_error rest failure) as [[e' consumed']|]; [|done].
    intros [= <- <-]. apply prefix_cons. by apply IH.
Qed.

Lemma sse_headers_content_type (hdrs : gmap string string) :
  sse_headers hdrs !! "Content-Type" = Some "text/event-stream".
Proof. unfold sse_headers. by simplify_map_eq. Qed.

Lemma streaming_world_event_stream h hdrs calls evs locals :
  event_stream (streaming_world h hdrs calls evs locals).
Proof.
  unfold event_stream. simpl. split_and!; [done..|].
  apply sse_headers_content_type.
Qed.

Lemma error_world_rejected h hdrs (msg : jsstring) (code : Z) :
  msg <> [] -> code <> 0 ->
  rejected (error_world h hdrs (httpError msg code)) code msg.
Proof.
  intros Hm Hc. unfold rejected, error_world. simpl.
  apply Z.eqb_neq in Hc. rewrite Hc.
  by destruct msg.
Qed.

(** No JSON body travels on a channel that carried only frames. *)
Lemma writes_no_send (b : JsonBody) (p : SsePayload) :
  EvSend b ∉ [EvWrite p; EvEnd].
Proof.
  intros H. apply elem_of_cons in H as [H|H]; [done|].
  apply elem_of_cons in H as [H|H]; [done|]. by apply elem_of_nil in H.
Qed.

Lemma send_no_write (b : JsonBody) (p : SsePayload) :
  EvWrite p ∉ [EvSend b; EvEnd].
Proof.
  intros H. apply elem_of_cons in H as [H|H]; [done|].
  apply elem_of_cons in H as [H|H]; [done|]. by apply elem_of_nil in H.
Qed.

Lemma frames_no_send (b : JsonBody) (l : list jsstring) (tail : list ChannelEvent) :
  EvSend b ∉ tail -> EvSend b ∉ chunk_frames l ++ tail.
Proof.
  intros Htail H. apply elem_of_app in H as [H|H]; [|done].
  apply list_elem_of_fmap in H as (fragment & H & _). done.
Qed.

(** * The claims *)

(** ** The relay *)

(** C1. For every successful relay -- the request passes the validator, the
    upstream call opens a stream, and the stream is consumed to its end --
    the channel receives one [{chunk}] frame per non-empty fragment of the
    stream, in arrival order, then one [{done: true, usage}] frame with the
    captured usage (or null), then it is closed, and that is all that is
    ever written on it; the response is a 200 event stream. *)
Theorem relay_frames (OWNER_CONTEXT : jsstring) (env : Env)
    (openai : ChatCompletionRequest -> UpstreamResult)
    (body : jsvalue) (s : jsstring) (chunks : list Chunk)
    (h : gmap loc TokenStats) (hdrs : gmap string string) :
  nullish body = false ->
  message_of body = JString s ->
  trim s <> [] ->
  (length (trim s) <= 1000)%nat ->
  openai (completion_request OWNER_CONTEXT env (trim s)) = Streaming chunks None ->
  Forall (fun chunk => chunk_choices chunk <> None) chunks ->
  let w' := (handleChat OWNER_CONTEXT env openai body (request_world h hdrs)).2 in
  event_stream w' /\
  channel (res w') =
    chunk_frames (fragments chunks) ++
    [EvWrite (DoneEvent (captured_usage chunks None)); EvEnd].
Proof.
  intros Hn Hm Ht Hlen Hup Hchunks.
  rewrite (handleChat_accepts _ _ _ _ (trim s))
    by by apply validation_accepts.
  unfold relay_world. rewrite Hup, stream_error_None by done. simpl.
  split; [apply streaming_world_event_stream | done].
Qed.

Lemma relay_frames_witness :
  channel (res (handleChat sample_context sample_env sample_upstream
                  (body_of (JString (lit "  hello ")))
                  (request_world initial_heap ∅)).2) =
  [ EvWrite (ChunkEvent (lit "Hi")); EvWrite (ChunkEvent (lit " there"));
    EvWrite (DoneEvent (Some (usage_summary 5 3 8))); EvEnd ].
Proof.
  refine (proj2 (relay_frames sample_context sample_env sample_upstream
                   (body_of (JString (lit "  hello "))) (lit "  hello ")
                   sample_stream initial_heap ∅ _ _ _ _ _ _)).
  - reflexivity.
  - reflexivity.
  - vm_compute. discriminate.
  - apply Nat.leb_le. vm_compute. reflexivity.
  - reflexivity.
  - repeat constructor; discriminate.
Defined.

(** ** The usage accumulator *)

Lemma num_or_present (z : Z) : num_or (Some z) 0 = z.
Proof. unfold num_or. destruct (Z.eqb_spec z 0); congruence. Qed.

(** *** Rounding to a double *)

Lemma round_double_small (z : Z) :
  Z.abs z < 9007199254740992 -> round_double z = z.
Proof.
  intros H. unfold round_double. apply Z.ltb_lt in H. by rewrite H.
Qed.

(** The binade of a large integer: its unit in the last place, and the two
    powers of two around it. *)
Lemma binade (z : Z) :
  9007199254740992 <= z ->
  1 <= Z.log2 z - 52 /\ 0 < 2 ^ (Z.log2 z - 52) /\
  4503599627370496 * 2 ^ (Z.log2 z - 52) <= z
    < 9007199254740992 * 2 ^ (Z.log2 z - 52).
Proof.
  intros Hz. set (ulp := 2 ^ (Z.log2 z - 52)).
  assert (H53 : 53 <= Z.log2 z).
  { change 53 with (Z.log2 9007199254740992). by apply Z.log2_le_mono. }
  destruct (Z.log2_spec z) as [Hlo Hhi]; [lia|].
  assert (E : 2 ^ Z.log2 z = 4503599627370496 * ulp).
  { unfold ulp. change 4503599627370496 with (2 ^ 52).
    rewrite <- Z.pow_add_r by lia. f_equal. lia. }
  assert (Hu : 0 < ulp) by (apply Z.pow_pos_nonneg; lia).
  split; [lia|]. split; [done|].
  replace (Z.succ (Z.log2 z)) with (Z.log2 z + 1) in Hhi by lia.
  rewrite Z.pow_add_r in Hhi by lia. change (2 ^ 1) with 2 in Hhi. lia.
Qed.

Lemma binade_unique (z k : Z) :
  0 <= k ->
  4503599627370496 * 2 ^ k <= z < 9007199254740992 * 2 ^ k ->
  Z.log2 z - 52 = k.
Proof.
  intros Hk [Hlo Hhi].
  assert (Z.log2 z = 52 + k); [|lia].
  apply Z.log2_unique; [lia|].
  rewrite Z.pow_add_r by lia. change (2 ^ 52) with 4503599627370496.
  replace (Z.succ (52 + k)) with (53 + k) by lia.
  rewrite Z.pow_add_r by lia. change (2 ^ 53) with 9007199254740992. lia.
Qed.

(** A large integer is rounded to a multiple of the unit in the last place
    of its binade, the quotient or the next one. *)
Lemma round_double_large (z : Z) :
  9007199254740992 <= z ->
  exists q',
    round_double z = q' * 2 ^ (Z.log2 z - 52) /\
    z / 2 ^ (Z.log2 z - 52) <= q' <= z / 2 ^ (Z.log2 z - 52) + 1 /\
    4503599627370496 <= q' <= 9007199254740992.
Proof.
  intros Hz. destruct (binade z Hz) as (Hk & Hu & Hlo & Hhi).
  unfold round_double. rewrite (Z.abs_eq z) by lia.
  replace (z <? 9007199254740992) with false by (symmetry; apply Z.ltb_ge; lia).
  set (ulp := 2 ^ (Z.log2 z - 52)) in *.
  rewrite Z.sgn_pos by lia.
  assert (Hq : 4503599627370496 <= z / ulp < 9007199254740992).
  { split; [apply Z.div_le_lower_bound; lia | apply Z.div_lt_upper_bound; lia]. }
  eexists. split; [by rewrite Z.mul_1_l|].
  destruct (_ || _); lia.
Qed.

Lemma round_double_floor (z : Z) :
  9007199254740992 <= z ->
  z / 2 ^ (Z.log2 z - 52) * 2 ^ (Z.log2 z - 52) <= round_double z.
Proof.
  intros Hz. destruct (binade z Hz) as (Hk & Hu & _).
  destruct (round_double_large z Hz) as (q' & -> & Hq & _). nia.
Qed.

(** A multiple of the unit in the last place, with a significand of 53
    bits, is a double. *)
Lemma round_double_multiple (m k : Z) :
  1 <= k -> 4503599627370496 <= m <= 9007199254740992 ->
  round_double (m * 2 ^ k) = m * 2 ^ k.
Proof.
  intros Hk Hm.
  assert (Hu : 0 < 2 ^ k) by (apply Z.pow_pos_nonneg; lia).
  assert (H2 : 2 ^ (k + 1) = 2 * 2 ^ k).
  { rewrite Z.pow_add_r by lia. change (2 ^ 1) with 2. lia. }
  assert (Hbig : 9007199254740992 <= m * 2 ^ k).
  { assert (2 <= 2 ^ k); [|nia].
    change 2 with (2 ^ 1) at 1. apply Z.pow_le_mono_r; lia. }
  destruct (Z.eq_dec m 9007199254740992) as [->|Hne].
  - assert (Ek : Z.log2 (9007199254740992 * 2 ^ k) - 52 = k + 1).
    { apply binade_unique; [lia|]. rewrite H2. lia. }
    unfold round_double. rewrite Z.abs_eq by lia.
    replace (_ <? 9007199254740992) with false by (symmetry; apply Z.ltb_ge; lia).
    rewrite Ek, H2, Z.sgn_pos by lia.
    replace (9007199254740992 * 2 ^ k) with (4503599627370496 * (2 * 2 ^ k)) by lia.
    rewrite Z.div_mul, Z.mod_mul by lia.
    replace (2 * 2 ^ k <? 2 * 0) with false by (symmetry; apply Z.ltb_ge; lia).
    replace (2 * 0 =? 2 * 2 ^ k) with false by (symmetry; apply Z.eqb_neq; lia).
    simpl. lia.
  - assert (Ek : Z.log2 (m * 2 ^ k) - 52 = k).
    { apply binade_unique; [lia|]. nia. }
    unfold round_double. rewrite Z.abs_eq by lia.
    replace (_ <? 9007199254740992) with false by (symmetry; apply Z.ltb_ge; lia).
    rewrite Ek, Z.sgn_pos by lia.
    rewrite Z.div_mul, Z.mod_mul by lia.
    replace (2 ^ k <? 2 * 0) with false by (symmetry; apply Z.ltb_ge; lia).
    replace (2 * 0 =? 2 ^ k) with false by (symmetry; apply Z.eqb_neq; lia).
    simpl. lia.
Qed.

Lemma round_double_idempotent (z : Z) :
  0 <= z -> round_double (round_double z) = round_double z.
Proof.
  intros Hz. destruct (Z.lt_ge_cases z 9007199254740992) as [Hs|Hb].
  - rewrite !(round_double_small z); lia.
  - destruct (binade z Hb) as (Hk & _).
    destruct (round_double_large z Hb) as (q' & -> & _ & Hq).
    by apply round_double_multiple.
Qed.

(** Rounding is monotone at a double: a double that is not above [z] is
    not above the double nearest to [z]. *)
Lemma round_double_above (x z : Z) :
  0 <= x -> round_double x = x -> x <= z -> x <= round_double z.
Proof.
  intros Hx Hfix Hxz.
  destruct (Z.lt_ge_cases z 9007199254740992) as [Hs|Hb].
  { rewrite round_double_small; lia. }
  etransitivity; [|by apply round_double_floor].
  destruct (binade z Hb) as (Hk & Hu & Hlo & Hhi).
  set (ulp := 2 ^ (Z.log2 z - 52)) in *.
  assert (Hfloor : 4503599627370496 * ulp <= z / ulp * ulp).
  { assert (4503599627370496 <= z / ulp); [|nia].
    apply Z.div_le_lower_bound; lia. }
  destruct (Z.lt_ge_cases x (4503599627370496 * ulp)) as [Hlt|Hge]; [lia|].
  assert (Hxb : 9007199254740992 <= x).
  { assert (2 <= ulp); [|lia]. unfold ulp.
    change 2 with (2 ^ 1) at 1. apply Z.pow_le_mono_r; lia. }
  assert (Ek : Z.log2 x - 52 = Z.log2 z - 52).
  { apply binade_unique; [lia|]. fold ulp. lia. }
  destruct (round_double_large x Hxb) as (q' & E & _). rewrite Hfix, Ek in E.
  fold ulp in E. rewrite E.
  apply Z.mul_le_mono_nonneg_r; [lia|].
  apply Z.div_le_lower_bound; lia.
Qed.

(** And from the other side: the double nearest to [z] is not above a
    double that is not below [z]. *)
Lemma round_double_below (x z : Z) :
  0 <= z -> round_double x = x -> z <= x -> round_double z <= x.
Proof.
  intros Hz Hfix Hzx.
  destruct (Z.lt_ge_cases z 9007199254740992) as [Hs|Hb].
  { rewrite round_double_small; lia. }
  destruct (binade z Hb) as (Hk & Hu & Hlo & Hhi).
  destruct (round_double_large z Hb) as (q' & Ez & [_ Hq] & [_ Hq']).
  set (ulp := 2 ^ (Z.log2 z - 52)) in *. rewrite Ez.
  destruct (Z.lt_ge_cases x (9007199254740992 * ulp)) as [Hlt|Hge]; [|nia].
  assert (Ek : Z.log2 x - 52 = Z.log2 z - 52).
  { apply binade_unique; [lia|]. fold ulp. lia. }
  destruct (round_double_large x) as (qx & Ex & _); [lia|].
  rewrite Hfix, Ek in Ex. fold ulp in Ex.
  destruct (Z.eq_dec z x) as [E|Hne]; [rewrite <- Ez, E, Hfix; lia|].
  assert (z / ulp < qx) by (apply Z.div_lt_upper_bound; lia).
  rewrite Ex. apply Z.mul_le_mono_nonneg_r; lia.
Qed.

Lemma round_double_max : round_double max_double = max_double.
Proof. by apply (round_double_multiple (2 ^ 53 - 1) 971). Qed.

(** Adding two non-negative numbers: the sum is not below the first, it is
    a number again, and it is finite when the exact sum does not pass
    [Number.MAX_VALUE]. *)
Lemma js_add_double (x y : Z) :
  double_count x -> double_count y ->
  x <= js_add x y /\ double_count (js_add x y) /\
  (x + y <= max_double -> js_add x y <= max_double).
Proof.
  intros [Hx Ex] [Hy _]. unfold js_add.
  assert (Hle : x <= round_double (x + y)) by (apply round_double_above; lia).
  split; [done|]. split.
  - split; [lia|]. apply round_double_idempotent. lia.
  - intros Hmax. apply round_double_below; [lia | apply round_double_max | done].
Qed.

(** Up to 2^53 the sum of two non-negative integers is exact. *)
Lemma js_add_exact (x y : Z) :
  0 <= x -> 0 <= y -> x + y <= exact_limit -> js_add x y = x + y.
Proof.
  intros Hx Hy Hle. unfold js_add.
  destruct (Z.eq_dec (x + y) exact_limit) as [E|Hne]; [by rewrite E|].
  apply round_double_small. unfold exact_limit in *. lia.
Qed.

(** *** Exact sums *)

Lemma Zsum_nonneg (l : list Z) : Forall (fun z => 0 <= z) l -> 0 <= Zsum l.
Proof. induction 1; simpl; lia. Qed.

Lemma nonneg_counts_sums (l : list (Z * Z * Z)) :
  Forall nonneg_counts l ->
  0 <= Zsum (map (fun x => x.1.1) l) /\
  0 <= Zsum (map (fun x => x.1.2) l) /\
  0 <= Zsum (map snd l).
Proof.
  induction 1 as [|x l (Hp & Hc & Ht) _ IH]; simpl; [lia|].
  unfold Zsum in *. lia.
Qed.

Lemma usage_counts_summary (x : Z * Z * Z) : usage_counts (summary_of x) = x.
Proof.
  destruct x as [[p c] t]. unfold usage_counts, summary_of, usage_summary.
  cbn [prompt_tokens completion_tokens total_tokens fst snd].
  by rewrite !num_or_present.
Qed.

Lemma plus_counts_nil (s : TokenStats) : plus_counts s [] = s.
Proof. destruct s. unfold plus_counts. simpl. f_equal; lia. Qed.

Lemma plus_counts_cons (s : TokenStats) (x : Z * Z * Z) (l : list (Z * Z * Z)) :
  plus_counts (plus_counts s [x]) l = plus_counts s (x :: l).
Proof.
  unfold plus_counts.
  cbn [totalRequests promptTokens completionTokens totalTokens length map].
  rewrite Nat2Z.inj_succ. unfold Zsum. simpl. f_equal; lia.
Qed.

Lemma plus_counts_nonneg (s : TokenStats) (l : list (Z * Z * Z)) :
  nonneg_stats s -> Forall nonneg_counts l -> nonneg_stats (plus_counts s l).
Proof.
  intros (H1 & H2 & H3 & H4) Hl.
  destruct (nonneg_counts_sums l Hl) as (Hp & Hc & Ht).
  unfold nonneg_stats, plus_counts. simpl. lia.
Qed.

Lemma plus_counts_within (bound : Z) (s : TokenStats) (x : Z * Z * Z)
    (l : list (Z * Z * Z)) :
  Forall nonneg_counts l ->
  stats_within bound (plus_counts s (x :: l)) ->
  stats_within bound (plus_counts s [x]).
Proof.
  intros Hl (B1 & B2 & B3 & B4).
  destruct (nonneg_counts_sums l Hl) as (Hp & Hc & Ht).
  unfold stats_within, plus_counts in *.
  cbn [totalRequests promptTokens completionTokens totalTokens length map] in *.
  rewrite Nat2Z.inj_succ in B1. unfold Zsum in *. simpl in *. lia.
Qed.

(** Within the range where doubles are exact, [_recordUsage] adds the three
    counts and one request. *)
Lemma add_usage_exact (u : Usage) (s : TokenStats) :
  nonneg_stats s -> nonneg_counts (usage_counts u) ->
  stats_within exact_limit (plus_counts s [usage_counts u]) ->
  add_usage u s = plus_counts s [usage_counts u].
Proof.
  intros (H1 & H2 & H3 & H4) (Hp & Hc & Ht) (B1 & B2 & B3 & B4).
  unfold plus_counts, usage_counts, Zsum in *.
  cbn [totalRequests promptTokens completionTokens totalTokens
       length map foldr fst snd] in *.
  change (Z.of_nat 1) with 1 in *.
  unfold add_usage. rewrite !Z.add_0_r in *.
  f_equal; apply js_add_exact; lia.
Qed.

Lemma _recordUsage_lookup (u : Usage) (h : gmap loc TokenStats) (s : TokenStats) :
  h !! _tokenStats = Some s ->
  _recordUsage (Some u) h !! _tokenStats = Some (add_usage u s).
Proof. intros H. simpl. rewrite lookup_alter_eq. by rewrite H. Qed.

Lemma getTokenStats_fresh (h : gmap loc TokenStats) :
  h !! (getTokenStats h).1 = None.
Proof. simpl. apply not_elem_of_dom, is_fresh. Qed.

Lemma getTokenStats_preserves (h : gmap loc TokenStats) (l : loc) (o : TokenStats) :
  h !! l = Some o -> (getTokenStats h).2 !! l = Some o.
Proof.
  intros H. simpl. rewrite lookup_insert_ne; [done|].
  intros E. pose proof (getTokenStats_fresh h) as Hf. simpl in Hf. congruence.
Qed.

Lemma getTokenStats_copy (h : gmap loc TokenStats) (s : TokenStats) :
  h !! _tokenStats = Some s ->
  (getTokenStats h).2 !! (getTokenStats h).1 = Some s.
Proof.
  intros H. simpl. rewrite lookup_insert_eq.
  by rewrite (lookup_total_correct _ _ _ H).
Qed.

(** Within the range where doubles are exact, a sequence of operations adds
    to the counters the summaries it records, and nothing else. *)
Lemma run_ops_lookup (ops : list AccumulatorOp)
    (h : gmap loc TokenStats) (s : TokenStats) :
  h !! _tokenStats = Some s ->
  nonneg_stats s ->
  Forall nonneg_counts (summaries_of ops) ->
  stats_within exact_limit (plus_counts s (summaries_of ops)) ->
  run_ops ops h !! _tokenStats = Some (plus_counts s (summaries_of ops)).
Proof.
  revert h s. induction ops as [|[[x|]|] ops IH]; intros h s Hs Hn Hl Hb.
  - simpl. by rewrite plus_counts_nil.
  - change (summaries_of (OpRecord (Some x) :: ops))
      with (x :: summaries_of ops) in *.
    change (run_ops (OpRecord (Some x) :: ops) h)
      with (run_ops ops (_recordUsage (Some (summary_of x)) h)).
    apply Forall_cons in Hl as [Hx Hl].
    assert (E : add_usage (summary_of x) s = plus_counts s [x]).
    { rewrite <- (usage_counts_summary x) at 2.
      apply add_usage_exact; rewrite ?usage_counts_summary; try done.
      by eapply plus_counts_within. }
    rewrite <- plus_counts_cons, <- E.
    apply IH; [by apply _recordUsage_lookup | | done |].
    + rewrite E. apply plus_counts_nonneg; [done|]. by constructor.
    + by rewrite E, plus_counts_cons.
  - simpl. by apply IH.
  - change (summaries_of (OpSnapshot :: ops)) with (summaries_of ops) in *.
    change (run_ops (OpSnapshot :: ops) h)
      with (run_ops ops (getTokenStats h).2).
    apply IH; try done. by apply getTokenStats_preserves.
Qed.

(** C2, as the code has it. The counters are JavaScript numbers, and [+=]
    on them rounds to a double. After any sequence of [record] calls and
    snapshots since the module was loaded, the four counters are the
    number of summaries recorded so far and the sums of their three
    counts, as long as the counts are not negative and neither that number
    nor a sum exceeds 2^53; [record] of an absent summary changes nothing;
    and, short of overflow (the exact sums do not pass
    [Number.MAX_VALUE]), recording a summary whose counts are non-negative
    numbers lowers no counter, exact or not, and leaves four finite
    non-negative numbers. *)
Theorem usage_accumulator_sums :
  (forall ops : list AccumulatorOp,
     let summaries := summaries_of ops in
     Forall nonneg_counts summaries ->
     Z.of_nat (length summaries) <= exact_limit ->
     Zsum (map (fun x => x.1.1) summaries) <= exact_limit ->
     Zsum (map (fun x => x.1.2) summaries) <= exact_limit ->
     Zsum (map snd summaries) <= exact_limit ->
     run_ops ops initial_heap !! _tokenStats =
     Some {| totalRequests := Z.of_nat (length summaries);
             promptTokens := Zsum (map (fun x => x.1.1) summaries);
             completionTokens := Zsum (map (fun x => x.1.2) summaries);
             totalTokens := Zsum (map snd summaries) |}) /\
  (forall h : gmap loc TokenStats, _recordUsage None h = h) /\
  (forall (h : gmap loc TokenStats) (s : TokenStats) (u : Usage),
     h !! _tokenStats = Some s ->
     double_stats s ->
     double_usage u ->
     stats_within max_double (plus_counts s [usage_counts u]) ->
     exists s', _recordUsage (Some u) h !! _tokenStats = Some s' /\
       totalRequests s <= totalRequests s' /\
       promptTokens s <= promptTokens s' /\
       completionTokens s <= completionTokens s' /\
       totalTokens s <= totalTokens s' /\
       double_stats s' /\
       stats_within max_double s').
Proof.
  split_and!.
  - intros ops summaries Hl B1 B2 B3 B4.
    by rewrite (run_ops_lookup ops initial_heap _ (lookup_singleton_eq _ _)).
  - done.
  - intros h s u Hs (D1 & D2 & D3 & D4) (Dp & Dc & Dt) (B1 & B2 & B3 & B4).
    eexists. split; [by apply _recordUsage_lookup|].
    assert (D0 : double_count 1) by (by split).
    unfold plus_counts, usage_counts, Zsum in B1, B2, B3, B4.
    cbn [totalRequests promptTokens completionTokens totalTokens
         length map foldr fst snd] in B1, B2, B3, B4.
    change (Z.of_nat 1) with 1 in B1. rewrite Z.add_0_r in B2, B3, B4.
    destruct (js_add_double _ _ D1 D0) as (? & ? & M1),
      (js_add_double _ _ D2 Dp) as (? & ? & M2),
      (js_add_double _ _ D3 Dc) as (? & ? & M3),
      (js_add_double _ _ D4 Dt) as (? & ? & M4).
    unfold double_stats, stats_within, add_usage; simpl.
    split_and!; try done; [apply M1 | apply M2 | apply M3 | apply M4]; done.
Qed.

Lemma usage_accumulator_sums_witness :
  run_ops [OpRecord (Some (5, 3, 8)); OpSnapshot; OpRecord None;
           OpRecord (Some (7, 2, 9))]
    initial_heap !! _tokenStats =
  Some {| totalRequests := 2; promptTokens := 12;
          completionTokens := 5; totalTokens := 17 |} /\
  (let s := {| totalRequests := 1; promptTokens := 9007199254740992;
               completionTokens := 0; totalTokens := 9007199254740992 |} in
   let u := usage_summary 3 1 4 in
   double_stats s /\ double_usage u /\
   stats_within max_double (plus_counts s [usage_counts u]) /\
   exists s', _recordUsage (Some u) {[ _tokenStats := s ]} !! _tokenStats
              = Some s' /\
     totalRequests s <= totalRequests s' /\
     promptTokens s <= promptTokens s' /\
     completionTokens s <= completionTokens s' /\
     totalTokens s <= totalTokens s' /\
     double_stats s' /\
     stats_within max_double s').
Proof.
  split.
  { refine (proj1 usage_accumulator_sums
              [OpRecord (Some (5, 3, 8)); OpSnapshot; OpRecord None;
               OpRecord (Some (7, 2, 9))] _ _ _ _ _).
    - repeat constructor; done.
    - by vm_compute.
    - by vm_compute.
    - by vm_compute.
    - by vm_compute. }
  set (s := {| totalRequests := 1; promptTokens := 9007199254740992;
               completionTokens := 0; totalTokens := 9007199254740992 |}).
  set (u := usage_summary 3 1 4).
  assert (Hd : double_stats s) by (repeat split; by vm_compute).
  assert (Hu : double_usage u) by (repeat split; by vm_compute).
  assert (Hb : stats_within max_double (plus_counts s [usage_counts u]))
    by (repeat split; by vm_compute).
  split; [exact Hd|]. split; [exact Hu|]. split; [exact Hb|].
  exact (proj2 (proj2 usage_accumulator_sums) {[ _tokenStats := s ]} s u
           (lookup_singleton_eq _ _) Hd Hu Hb).
Defined.

(** C2 as stated fails on the code from 2^53 on: after the summaries
    (2^53, 0, 2^53) and (1, 0, 1) the prompt counter is 2^53, not the sum
    2^53 + 1, which is not a double. *)
Lemma usage_accumulator_counterexample :
  let ops := [OpRecord (Some (9007199254740992, 0, 9007199254740992));
              OpRecord (Some (1, 0, 1))] in
  exists s, run_ops ops initial_heap !! _tokenStats = Some s /\
    promptTokens s = 9007199254740992 /\
    Zsum (map (fun x => x.1.1) (summaries_of ops)) = 9007199254740993 /\
    promptTokens s <> Zsum (map (fun x => x.1.1) (summaries_of ops)).
Proof. eexists. split; [reflexivity|]. by vm_compute. Qed.

(** C3. A chat request that fails -- rejected by the validator, or the
    upstream call rejected, or the stream interrupted, whether or not a
    usage summary had been seen -- leaves the accumulator as it was; and
    whatever happens, a request changes the accumulator by at most one
    [record], which comes with the [done] frame of a successful relay. *)
Theorem failed_relay_keeps_counters (OWNER_CONTEXT : jsstring) (env : Env)
    (openai : ChatCompletionRequest -> UpstreamResult) (body : jsvalue)
    (h : gmap loc TokenStats) (hdrs : gmap string string) :
  let w' := (handleChat OWNER_CONTEXT env openai body (request_world h hdrs)).2 in
  (relay_fails OWNER_CONTEXT env openai body -> heap w' = h) /\
  (heap w' = h \/
   exists u, heap w' = _recordUsage (Some u) h /\
             EvWrite (DoneEvent (Some u)) ∈ channel (res w')).
Proof.
  simpl. split.
  - intros [e He|t e Ht Hup|t chunks consumed failure e Ht Hup Herr].
    + by rewrite (handleChat_rejects _ _ _ _ e).
    + rewrite (handleChat_accepts _ _ _ _ t) by done.
      unfold relay_world. by rewrite Hup.
    + rewrite (handleChat_accepts _ _ _ _ t) by done.
      unfold relay_world. by rewrite Hup, Herr.
  - destruct (validation body) as [e|t] eqn:Hv.
    + left. by rewrite (handleChat_rejects _ _ _ _ e).
    + rewrite (handleChat_accepts _ _ _ _ t) by done.
      unfold relay_world.
      destruct (openai _) as [e|chunks failure]; [by left|].
      destruct (stream_error chunks failure) as [[e consumed]|]; [by left|].
      destruct (captured_usage chunks None) as [u|]; [|by left].
      right. exists u. split; [done|]. simpl.
      apply elem_of_app. right. apply list_elem_of_here.
Qed.

Lemma failed_relay_keeps_counters_witness :
  relay_fails sample_context sample_env breaking_upstream
    (body_of (JString (lit "hello"))) /\
  heap (handleChat sample_context sample_env breaking_upstream
          (body_of (JString (lit "hello")))
          (request_world initial_heap ∅)).2 = initial_heap.
Proof.
  assert (H : relay_fails sample_context sample_env breaking_upstream
                (body_of (JString (lit "hello")))).
  { eapply fails_mid_stream; reflexivity. }
  split; [exact H|].
  exact (proj1 (failed_relay_keeps_counters sample_context sample_env
                  breaking_upstream (body_of (JString (lit "hello")))
                  initial_heap ∅) H).
Defined.

(** ** The validator *)

Lemma msg_no_message_nonempty : msg_no_message <> [].
Proof. discriminate. Qed.

Lemma msg_blank_nonempty : msg_blank <> [].
Proof. discriminate. Qed.

Lemma msg_too_long_nonempty : msg_too_long <> [].
Proof. discriminate. Qed.

(** The verdict of the checks on a body that can be destructured. *)
Lemma validation_table (body : jsvalue) :
  nullish body = false ->
  validation body =
  match message_of body with
  | JString s =>
      if bool_decide (s = []) then inl (httpError msg_no_message 400)
      else if bool_decide (trim s = []) then inl (httpError msg_blank 400)
      else if (1000 <? length (trim s))%nat then inl (httpError msg_too_long 400)
      else inr (trim s)
  | _ => inl (httpError msg_no_message 400)
  end.
Proof.
  intros Hn. unfold validation. rewrite Hn.
  destruct (message_of body) as [| | | |[|c s]| |]; try done.
  rewrite bool_decide_eq_false_2 by done.
  destruct (trim (c :: s)) as [|c' t]; [done|].
  by rewrite bool_decide_eq_false_2 by done.
Qed.

(** C4. The validator checks, in this order, that the message is a
    non-empty string, that its trimmed form is not empty, and that its
    trimmed form has at most 1000 code units; the first check that fails
    decides the response, a 400 JSON error sent before anything of a stream
    has begun. In particular a message that is missing or not a string is
    rejected with [Request body must include a "message" string.] *)
Theorem validator_rejects_non_string (OWNER_CONTEXT : jsstring) (env : Env)
    (openai : ChatCompletionRequest -> UpstreamResult) (body : jsvalue)
    (h : gmap loc TokenStats) (hdrs : gmap string string) :
  nullish body = false ->
  let w' := (handleChat OWNER_CONTEXT env openai body (request_world h hdrs)).2 in
  (is_string (message_of body) = false ->
   rejected w' 400 msg_no_message /\ heap w' = h) /\
  (forall s, message_of body = JString s ->
     if bool_decide (s = []) then rejected w' 400 msg_no_message
     else if bool_decide (trim s = []) then rejected w' 400 msg_blank
     else if (1000 <? length (trim s))%nat then rejected w' 400 msg_too_long
     else event_stream w' /\
          upstreamCalls w' = [completion_request OWNER_CONTEXT env (trim s)]) /\
  includes msg_no_message
    (lit "must include a " ++ dquote ++ lit "message" ++ dquote ++ lit " string")
  = true.
Proof.
  intros Hn. pose proof (validation_table body Hn) as Hv. simpl.
  split_and!.
  - intros Hs.
    assert (validation body = inl (httpError msg_no_message 400)) as He.
    { rewrite Hv. by destruct (message_of body). }
    rewrite (handleChat_rejects _ _ _ _ _ _ _ He). simpl. split; [|done].
    by apply error_world_rejected.
  - intros s Hm. rewrite Hm in Hv.
    destruct (bool_decide (s = [])).
    { rewrite (handleChat_rejects _ _ _ _ _ _ _ Hv).
      by apply error_world_rejected. }
    destruct (bool_decide (trim s = [])).
    { rewrite (handleChat_rejects _ _ _ _ _ _ _ Hv).
      by apply error_world_rejected. }
    destruct (1000 <? length (trim s))%nat.
    { rewrite (handleChat_rejects _ _ _ _ _ _ _ Hv).
      by apply error_world_rejected. }
    rewrite (handleChat_accepts _ _ _ _ _ _ _ Hv). simpl.
    unfold relay_world.
    destruct (openai _) as [e|chunks failure];
      [|destruct (stream_error chunks failure) as [[e consumed]|]];
      (split; [apply streaming_world_event_stream | done]).
  - by vm_compute.
Qed.

Lemma validator_rejects_non_string_witness :
  nullish (body_of (JNumber (42 # 1))) = false /\
  is_string (message_of (body_of (JNumber (42 # 1)))) = false /\
  rejected
    (handleChat sample_context sample_env sample_upstream
       (body_of (JNumber (42 # 1))) (request_world initial_heap ∅)).2
    400 msg_no_message.
Proof.
  split; [reflexivity|]. split; [reflexivity|].
  exact (proj1 (proj1 (validator_rejects_non_string sample_context sample_env
                         sample_upstream (body_of (JNumber (42 # 1)))
                         initial_heap ∅ eq_refl) eq_refl)).
Defined.

(** C5, as the code has it. A message that is a non-empty string with an
    empty trimmed form -- a string of white space only -- fails the second
    check: 400 with the text ["message" must not be blank.]. The empty string
    does not reach that check: it is falsy, fails the first check and is answered
    with the text of the missing message. *)
Theorem blank_message_rejected (OWNER_CONTEXT : jsstring) (env : Env)
    (openai : ChatCompletionRequest -> UpstreamResult) (body : jsvalue)
    (s : jsstring) (h : gmap loc TokenStats) (hdrs : gmap string string) :
  nullish body = false ->
  message_of body = JString s ->
  trim s = [] ->
  let w' := (handleChat OWNER_CONTEXT env openai body (request_world h hdrs)).2 in
  (s <> [] -> rejected w' 400 msg_blank) /\
  (s = [] -> rejected w' 400 msg_no_message) /\
  includes msg_blank (lit "must not be blank") = true.
Proof.
  intros Hn Hm Ht. pose proof (validation_table body Hn) as Hv.
  rewrite Hm, Ht in Hv. simpl. split_and!.
  - intros Hs. rewrite bool_decide_eq_false_2 in Hv by done. simpl in Hv.
    rewrite (handleChat_rejects _ _ _ _ _ _ _ Hv).
    by apply error_world_rejected.
  - intros Hs. rewrite bool_decide_eq_true_2 in Hv by done.
    rewrite (handleChat_rejects _ _ _ _ _ _ _ Hv).
    by apply error_world_rejected.
  - by vm_compute.
Qed.

Lemma blank_message_rejected_witness :
  trim [32; 9; 10; 160]%N = [] /\
  rejected
    (handleChat sample_context sample_env sample_upstream
       (body_of (JString [32; 9; 10; 160]%N)) (request_world initial_heap ∅)).2
    400 msg_blank.
Proof.
  split; [reflexivity|].
  refine (proj1 (blank_message_rejected sample_context sample_env
                   sample_upstream (body_of (JString [32; 9; 10; 160]%N))
                   [32; 9; 10; 160]%N initial_heap ∅ _ _ _) _);
    [reflexivity | reflexivity | reflexivity | discriminate].
Defined.

(** C5 as stated fails on the empty string: its trimmed form is empty, yet
    the response carries the text of the first check, not that of the
    non-emptiness check. *)
Lemma empty_message_counterexample :
  trim [] = [] /\
  channel (res (handleChat sample_context sample_env sample_upstream
                  (body_of (JString [])) (request_world initial_heap ∅)).2)
  = [EvSend (ErrorJson msg_no_message); EvEnd] /\
  ~ rejected
      (handleChat sample_context sample_env sample_upstream
         (body_of (JString [])) (request_world initial_heap ∅)).2
      400 msg_blank.
Proof.
  split; [reflexivity|]. split; [reflexivity|].
  intros (_ & Hchannel & _). vm_compute in Hchannel. discriminate.
Qed.

(** C6. A message whose trimmed form has 1001 code units or more is
    rejected: 400 with the text ["message" must be 1000 characters or
    fewer.]. A message whose trimmed form has exactly 1000 passes the validator: the
    event-stream headers are flushed and the upstream call is opened. *)
Theorem length_limit (OWNER_CONTEXT : jsstring) (env : Env)
    (openai : ChatCompletionRequest -> UpstreamResult) (body : jsvalue)
    (s : jsstring) (h : gmap loc TokenStats) (hdrs : gmap string string) :
  nullish body = false ->
  message_of body = JString s ->
  let w' := (handleChat OWNER_CONTEXT env openai body (request_world h hdrs)).2 in
  ((1001 <= length (trim s))%nat -> rejected w' 400 msg_too_long /\ heap w' = h) /\
  (length (trim s) = 1000%nat ->
   event_stream w' /\
   upstreamCalls w' = [completion_request OWNER_CONTEXT env (trim s)] /\
   forall b, EvSend b ∉ channel (res w')) /\
  includes msg_too_long (lit "must be 1000 characters or fewer") = true.
Proof.
  intros Hn Hm. pose proof (validation_table body Hn) as Hv.
  rewrite Hm in Hv. simpl.
  assert (Hne : (1 <= length (trim s))%nat -> s <> [] /\ trim s <> []).
  { intros Hlen. split; intros E; rewrite E in Hlen; simpl in Hlen; lia. }
  split_and!.
  - intros Hlen. destruct Hne as [Hs Ht]; [lia|].
    rewrite !bool_decide_eq_false_2 in Hv by done.
    replace (1000 <? length (trim s))%nat with true in Hv
      by (symmetry; apply Nat.ltb_lt; lia).
    rewrite (handleChat_rejects _ _ _ _ _ _ _ Hv). split; [|done].
    by apply error_world_rejected.
  - intros Hlen. destruct Hne as [Hs Ht]; [lia|].
    rewrite !bool_decide_eq_false_2 in Hv by done.
    replace (1000 <? length (trim s))%nat with false in Hv
      by (symmetry; apply Nat.ltb_ge; lia).
    rewrite (handleChat_accepts _ _ _ _ _ _ _ Hv).
    unfold relay_world.
    destruct (openai _) as [e|chunks failure];
      [|destruct (stream_error chunks failure) as [[e consumed]|]];
      (split; [apply streaming_world_event_stream|]); (split; [done|]);
      intros b; simpl; unfold error_frame; auto using frames_no_send, writes_no_send.
  - by vm_compute.
Qed.

Lemma length_limit_witness :
  (1001 <= length (trim (long_message 1001)))%nat /\
  rejected
    (handleChat sample_context sample_env sample_upstream
       (body_of (JString (long_message 1001))) (request_world initial_heap ∅)).2
    400 msg_too_long /\
  length (trim (long_message 1000)) = 1000%nat /\
  upstreamCalls
    (handleChat sample_context sample_env sample_upstream
       (body_of (JString (long_message 1000))) (request_world initial_heap ∅)).2
  = [completion_request sample_context sample_env (trim (long_message 1000))].
Proof.
  assert (H1 : (1001 <= length (trim (long_message 1001)))%nat)
    by (apply Nat.leb_le; vm_compute; reflexivity).
  assert (H0 : length (trim (long_message 1000)) = 1000%nat)
    by (vm_compute; reflexivity).
  split; [exact H1|]. split.
  - exact (proj1 (proj1 (length_limit sample_context sample_env sample_upstream
                           (body_of (JString (long_message 1001)))
                           (long_message 1001) initial_heap ∅ eq_refl eq_refl)
                   H1)).
  - split; [exact H0|].
    exact (proj1 (proj2 (proj1 (proj2
             (length_limit sample_context sample_env sample_upstream
                (body_of (JString (long_message 1000)))
                (long_message 1000) initial_heap ∅ eq_refl eq_refl)) H0))).
Defined.

(** ** Failures *)

(** C7. When a chat request fails after the headers were flushed -- the
    upstream call is rejected or the stream breaks -- the handler writes,
    after the frames already forwarded, one [{error}] frame and closes the
    channel, and no JSON body is sent. When it fails before the headers are
    sent -- the validator, or a body that cannot be destructured -- the
    error goes to the error middleware, which answers with the JSON object
    [{error: message}]. *)
Theorem failure_reporting (OWNER_CONTEXT : jsstring) (env : Env)
    (openai : ChatCompletionRequest -> UpstreamResult) (body : jsvalue)
    (h : gmap loc TokenStats) (hdrs : gmap string string) :
  relay_fails OWNER_CONTEXT env openai body ->
  let w' := (handleChat OWNER_CONTEXT env openai body (request_world h hdrs)).2 in
  match validation body with
  | inl e =>
      channel (res w') =
        [EvSend (ErrorJson (str_or (err_message e) (lit "Internal server error")));
         EvEnd] /\
      statusCode (res w') = num_or (err_statusCode e) (num_or (err_status e) 500) /\
      forall p, EvWrite p ∉ channel (res w')
  | inr _ =>
      event_stream w' /\
      (exists consumed,
         channel (res w') =
           chunk_frames (fragments consumed) ++ [error_frame; EvEnd]) /\
      (forall b, EvSend b ∉ channel (res w'))
  end.
Proof.
  intros Hfail. simpl.
  destruct Hfail as [e He|t e Ht Hup|t chunks consumed failure e Ht Hup Herr].
  - rewrite He, (handleChat_rejects _ _ _ _ e) by done. simpl.
    split_and!; [done..|]. intros p. apply send_no_write.
  - rewrite Ht, (handleChat_accepts _ _ _ _ t) by done.
    unfold relay_world. rewrite Hup.
    split_and!; [apply streaming_world_event_stream | by exists [] |].
    intros b. apply writes_no_send.
  - rewrite Ht, (handleChat_accepts _ _ _ _ t) by done.
    unfold relay_world. rewrite Hup, Herr.
    split_and!; [apply streaming_world_event_stream | by exists consumed |].
    intros b. simpl. apply frames_no_send, writes_no_send.
Qed.

Lemma failure_reporting_witness :
  relay_fails sample_context sample_env breaking_upstream
    (body_of (JString (lit "hello"))) /\
  let w' := (handleChat sample_context sample_env breaking_upstream
               (body_of (JString (lit "hello")))
               (request_world initial_heap ∅)).2 in
  event_stream w' /\
  (exists consumed,
     channel (res w') = chunk_frames (fragments consumed) ++ [error_frame; EvEnd]) /\
  (forall b, EvSend b ∉ channel (res w')).
Proof.
  assert (H : relay_fails sample_context sample_env breaking_upstream
                (body_of (JString (lit "hello")))).
  { eapply fails_mid_stream; reflexivity. }
  split; [exact H|].
  exact (failure_reporting sample_context sample_env breaking_upstream
           (body_of (JString (lit "hello"))) initial_heap ∅ H).
Defined.

(** ** Snapshots *)

Lemma statsRoute_run (h : gmap loc TokenStats) (hdrs : gmap string string)
    (s : TokenStats) :
  h !! _tokenStats = Some s ->
  statsRoute (request_world h hdrs) =
  (Ret tt,
   {| heap := (getTokenStats h).2;
      res := {| statusCode := 200;
                headers := hdrs;
                headersSent := true;
                channel := [EvSend (StatsJson s); EvEnd];
                locals_tokenUsage := None |};
      upstreamCalls := [] |}).
Proof.
  intros H. unfold statsRoute. simpl.
  rewrite lookup_total_insert_eq.
  by rewrite (lookup_total_correct _ _ _ H).
Qed.

(** C9. A snapshot is a new object that holds the values of the counters.
    Taking it changes no object that existed, the accumulator among them;
    two snapshots in a row hold the same values; whatever is then stored in
    the object returned, the accumulator keeps its values; and two
    GET /api/stats in a row answer with the same JSON body. *)
Theorem snapshot_does_not_mutate (h : gmap loc TokenStats) (s : TokenStats)
    (hdrs : gmap string string) :
  h !! _tokenStats = Some s ->
  let l1 := (getTokenStats h).1 in
  let h1 := (getTokenStats h).2 in
  let l2 := (getTokenStats h1).1 in
  let h2 := (getTokenStats h1).2 in
  (h1 !! l1 = Some s /\ h2 !! l2 = Some s) /\
  (forall l o, h !! l = Some o -> h1 !! l = Some o /\ h2 !! l = Some o) /\
  (l1 <> _tokenStats /\
   forall o : TokenStats, <[l1 := o]> h1 !! _tokenStats = Some s) /\
  (let w1 := (statsRoute (request_world h hdrs)).2 in
   let w2 := (statsRoute (request_world (heap w1) hdrs)).2 in
   channel (res w1) = [EvSend (StatsJson s); EvEnd] /\
   channel (res w2) = [EvSend (StatsJson s); EvEnd] /\
   heap w2 !! _tokenStats = Some s).
Proof.
  intros Hs l1 h1 l2 h2.
  assert (Hs1 : h1 !! _tokenStats = Some s) by by apply getTokenStats_preserves.
  assert (Hne : l1 <> _tokenStats).
  { intros E. pose proof (getTokenStats_fresh h) as Hf.
    fold l1 in Hf. congruence. }
  split_and!.
  - by apply getTokenStats_copy.
  - by apply getTokenStats_copy.
  - intros l o Hl. split; [by apply getTokenStats_preserves|].
    by do 2 apply getTokenStats_preserves.
  - done.
  - intros o. by rewrite lookup_insert_ne.
  - rewrite (statsRoute_run h hdrs s) by done. cbn [snd heap].
    rewrite (statsRoute_run _ hdrs s) by done. cbn [snd heap res channel].
    split_and!; [done..|]. by apply getTokenStats_preserves.
Qed.

Lemma snapshot_does_not_mutate_witness :
  let h := _recordUsage (Some (usage_summary 5 3 8)) initial_heap in
  let s := {| totalRequests := 1; promptTokens := 5;
              completionTokens := 3; totalTokens := 8 |} in
  h !! _tokenStats = Some s /\
  (getTokenStats h).2 !! (getTokenStats h).1 = Some s /\
  (getTokenStats (getTokenStats h).2).2 !! (getTokenStats (getTokenStats h).2).1
    = Some s.
Proof.
  intros h s.
  assert (H : h !! _tokenStats = Some s) by reflexivity.
  split; [exact H|].
  exact (proj1 (snapshot_does_not_mutate h s ∅ H)).
Defined.

(** ** The upstream request *)

Lemma relay_world_calls (OWNER_CONTEXT : jsstring) (env : Env)
    (openai : ChatCompletionRequest -> UpstreamResult)
    (h : gmap loc TokenStats) (hdrs : gmap string string) (trimmed : jsstring) :
  upstreamCalls (relay_world OWNER_CONTEXT env openai h hdrs trimmed) =
  [completion_request OWNER_CONTEXT env trimmed].
Proof.
  unfold relay_world.
  destruct (openai _) as [e|chunks failure]; [done|].
  by destruct (stream_error chunks failure) as [[e consumed]|].
Qed.

(** C10. For a request that passes the validator, one upstream call is
    made, and its user message is the trimmed message. A submission that
    differs from it by white space around the message alone makes the very
    same upstream call. *)
Theorem upstream_receives_trimmed (OWNER_CONTEXT : jsstring) (env : Env)
    (openai : ChatCompletionRequest -> UpstreamResult) (body : jsvalue)
    (s : jsstring) (h : gmap loc TokenStats) (hdrs : gmap string string) :
  nullish body = false ->
  message_of body = JString s ->
  trim s <> [] ->
  (length (trim s) <= 1000)%nat ->
  let w' := (handleChat OWNER_CONTEXT env openai body (request_world h hdrs)).2 in
  (exists request,
     upstreamCalls w' = [request] /\
     messages request = [ {| role := "system"; content := OWNER_CONTEXT |};
                          {| role := "user"; content := trim s |} ]) /\
  (forall (ws1 ws2 : jsstring) (body' : jsvalue)
          (h' : gmap loc TokenStats) (hdrs' : gmap string string),
     all_whitespace ws1 -> all_whitespace ws2 ->
     nullish body' = false ->
     message_of body' = JString (ws1 ++ s ++ ws2) ->
     upstreamCalls
       (handleChat OWNER_CONTEXT env openai body' (request_world h' hdrs')).2
     = upstreamCalls w').
Proof.
  intros Hn Hm Ht Hlen. simpl.
  rewrite (handleChat_accepts _ _ _ _ (trim s)) by by apply validation_accepts.
  simpl. rewrite relay_world_calls. split.
  - eexists. split; reflexivity.
  - intros ws1 ws2 body' h' hdrs' H1 H2 Hn' Hm'.
    assert (E : trim (ws1 ++ s ++ ws2) = trim s) by by apply trim_surrounded.
    rewrite (handleChat_accepts _ _ _ _ (trim s)).
    + simpl. apply relay_world_calls.
    + rewrite <- E. apply validation_accepts; [done..| |]; by rewrite E.
Qed.

Lemma upstream_receives_trimmed_witness :
  trim (lit "hello") <> [] /\
  (length (trim (lit "hello")) <= 1000)%nat /\
  upstreamCalls
    (handleChat sample_context sample_env sample_upstream
       (body_of (JString (lit "  hello "))) (request_world initial_heap ∅)).2
  = upstreamCalls
      (handleChat sample_context sample_env sample_upstream
         (body_of (JString (lit "hello"))) (request_world initial_heap ∅)).2.
Proof.
  assert (H1 : trim (lit "hello") <> []) by (vm_compute; discriminate).
  assert (H2 : (length (trim (lit "hello")) <= 1000)%nat)
    by (apply Nat.leb_le; vm_compute; reflexivity).
  split; [exact H1|]. split; [exact H2|].
  refine (proj2 (upstream_receives_trimmed sample_context sample_env
                   sample_upstream (body_of (JString (lit "hello")))
                   (lit "hello") initial_heap ∅ eq_refl eq_refl H1 H2)
            (lit "  ") (lit " ") (body_of (JString (lit "  hello ")))
            initial_heap ∅ _ _ eq_refl eq_refl);
    repeat constructor.
Defined.

(** * Further properties *)

(** ** The controller as a whole *)

Lemma relay_world_channel (OWNER_CONTEXT : jsstring) (env : Env)
    (openai : ChatCompletionRequest -> UpstreamResult)
    (h : gmap loc TokenStats) (hdrs : gmap string string) (trimmed : jsstring) :
  exists (written : list jsstring) (p : SsePayload),
    channel (res (relay_world OWNER_CONTEXT env openai h hdrs trimmed)) =
    (chunk_frames written ++ [EvWrite p]) ++ [EvEnd].
Proof.
  unfold relay_world.
  destruct (openai _) as [e|chunks failure].
  - exists [], (ErrorEvent (lit "Stream error occurred.")). reflexivity.
  - destruct (stream_error chunks failure) as [[e consumed]|]; simpl;
      eexists _, _; by rewrite <- app_assoc.
Qed.

Lemma frames_no_end (l : list jsstring) (p : SsePayload) :
  EvEnd ∉ chunk_frames l ++ [EvWrite p].
Proof.
  intros H. apply elem_of_app in H as [H|H].
  - apply list_elem_of_fmap in H as (fragment & H & _). done.
  - apply elem_of_cons in H as [H|H]; [done|]. by apply elem_of_nil in H.
Qed.

(** X1. Whatever the body and whatever the upstream does, the handler
    returns without throwing and has ended the response, once, as the last
    thing done on the channel. *)
Theorem handleChat_settles (OWNER_CONTEXT : jsstring) (env : Env)
    (openai : ChatCompletionRequest -> UpstreamResult) (body : jsvalue)
    (h : gmap loc TokenStats) (hdrs : gmap string string) :
  let r := handleChat OWNER_CONTEXT env openai body (request_world h hdrs) in
  r.1 = Ret tt /\
  exists evs, channel (res r.2) = evs ++ [EvEnd] /\ EvEnd ∉ evs.
Proof.
  simpl. destruct (validation body) as [e|t] eqn:Hv.
  - rewrite (handleChat_rejects _ _ _ _ e) by done. split; [done|].
    eexists [_]. split; [reflexivity|].
    intros H. apply elem_of_cons in H as [H|H]; [done|]. by apply elem_of_nil in H.
  - rewrite (handleChat_accepts _ _ _ _ t) by done. split; [done|].
    cbn [fst snd].
    destruct (relay_world_channel OWNER_CONTEXT env openai h hdrs t)
      as (written & p & ->).
    eexists. split; [reflexivity|]. apply frames_no_end.
Qed.




(** ** What trimming keeps *)

Lemma trimStart_decompose (s : jsstring) :
  exists ws, all_whitespace ws /\ s = ws ++ trimStart s.
Proof.
  induction s as [|c s (ws & Hws & IH)]; simpl.
  - exists []. split; [constructor | done].
  - destruct (is_whitespace c) eqn:Hc.
    + exists (c :: ws). split; [by constructor|]. simpl. by rewrite <- IH.
    + exists []. split; [constructor | done].
Qed.

Lemma trimEnd_decompose (s : jsstring) :
  exists ws, all_whitespace ws /\ s = trimEnd s ++ ws.
Proof.
  destruct (trimStart_decompose (rev s)) as (ws & Hws & E).
  exists (rev ws). split; [by apply all_whitespace_rev|].
  unfold trimEnd. rewrite <- rev_app_distr, <- E. by rewrite rev_involutive.
Qed.

Lemma trim_decompose (s : jsstring) :
  exists ws1 ws2,
    all_whitespace ws1 /\ all_whitespace ws2 /\ s = ws1 ++ trim s ++ ws2.
Proof.
  destruct (trimStart_decompose s) as (ws1 & H1 & E1).
  destruct (trimEnd_decompose (trimStart s)) as (ws2 & H2 & E2).
  exists ws1, ws2. split_and!; [done..|]. unfold trim. by rewrite <- E2.
Qed.

Lemma trim_trimmed_ends (s : jsstring) : trimmed_ends (trim s).
Proof.
  unfold trimmed_ends.
  destruct (trim s) as [|c t] eqn:E; [done|].
  unfold trim, trimEnd in E.
  destruct (trimStart (rev (trimStart s))) as [|c' v] eqn:Ev; [done|].
  pose proof (trimStart_head _ _ _ Ev) as Hc'. simpl in E.
  split.
  - destruct (trimStart_decompose (rev (trimStart s))) as (ws & Hws & Hrev).
    rewrite Ev in Hrev. apply (f_equal (@rev N)) in Hrev.
    rewrite rev_involutive, rev_app_distr in Hrev. simpl in Hrev.
    rewrite E in Hrev.
    destruct (trimStart s) as [|c0 u] eqn:Eu; [done|].
    simpl in Hrev. injection Hrev as <- _.
    by apply (trimStart_head _ _ _ Eu).
  - exists c'. split; [|done]. rewrite <- E. apply last_snoc.
Qed.

(** A string with no white space at either end is its own trimmed form. *)
Lemma trim_fixed (t : jsstring) : trimmed_ends t -> trim t = t.
Proof.
  destruct t as [|c t]; [done|]. intros (Hc & c' & Hlast & Hc').
  unfold trim. simpl trimStart. rewrite Hc.
  apply last_Some in Hlast as (t' & E). rewrite E.
  unfold trimEnd. rewrite rev_app_distr. simpl. rewrite Hc'.
  change (c' :: rev t') with (rev [c'] ++ rev t').
  by rewrite <- rev_app_distr, rev_involutive.
Qed.

Lemma trim_idempotent (s : jsstring) : trim (trim s) = trim s.
Proof. apply trim_fixed, trim_trimmed_ends. Qed.

(** X3. What the upstream receives as the visitor's message is a piece of
    the message submitted, cut out of it by dropping white space before and
    after and nothing else: white space inside is kept, and the piece
    neither starts nor ends with white space. *)
Theorem forwarded_message_shape (OWNER_CONTEXT : jsstring) (env : Env)
    (openai : ChatCompletionRequest -> UpstreamResult) (body : jsvalue)
    (s : jsstring) (h : gmap loc TokenStats) (hdrs : gmap string string) :
  nullish body = false ->
  message_of body = JString s ->
  trim s <> [] ->
  (length (trim s) <= 1000)%nat ->
  let w' := (handleChat OWNER_CONTEXT env openai body (request_world h hdrs)).2 in
  exists request userMessage ws1 ws2,
    upstreamCalls w' = [request] /\
    messages request = [ {| role := "system"; content := OWNER_CONTEXT |};
                         {| role := "user"; content := userMessage |} ] /\
    s = ws1 ++ userMessage ++ ws2 /\
    all_whitespace ws1 /\ all_whitespace ws2 /\
    trimmed_ends userMessage.
Proof.
  intros Hn Hm Ht Hlen. simpl.
  rewrite (handleChat_accepts _ _ _ _ (trim s)) by by apply validation_accepts.
  cbn [fst snd]. rewrite relay_world_calls.
  destruct (trim_decompose s) as (ws1 & ws2 & H1 & H2 & E).
  exists (completion_request OWNER_CONTEXT env (trim s)), (trim s), ws1, ws2.
  split_and!; [done..|]. apply trim_trimmed_ends.
Qed.

Lemma forwarded_message_shape_witness :
  exists request userMessage ws1 ws2,
    upstreamCalls
      (handleChat sample_context sample_env sample_upstream
         (body_of (JString (lit "  hello  world ")))
         (request_world initial_heap ∅)).2 = [request] /\
    messages request = [ {| role := "system"; content := sample_context |};
                         {| role := "user"; content := userMessage |} ] /\
    lit "  hello  world " = ws1 ++ userMessage ++ ws2 /\
    all_whitespace ws1 /\ all_whitespace ws2 /\
    trimmed_ends userMessage.
Proof.
  refine (forwarded_message_shape sample_context sample_env sample_upstream
            (body_of (JString (lit "  hello  world "))) (lit "  hello  world ")
            initial_heap ∅ eq_refl eq_refl _ _).
  - vm_compute. discriminate.
  - apply Nat.leb_le. vm_compute. reflexivity.
Defined.

(** ** More on the accumulator *)

Lemma insert_alter_tokenStats (f : TokenStats -> TokenStats) (s : TokenStats)
    (h : gmap loc TokenStats) :
  <[_tokenStats := s]> (alter f _tokenStats h) = <[_tokenStats := s]> h.
Proof.
  apply map_eq. intros l. destruct (decide (l = _tokenStats)) as [->|Hne].
  - by rewrite !lookup_insert_eq.
  - by rewrite !lookup_insert_ne, lookup_alter_ne.
Qed.

(** Within the range where doubles are exact, a run of [_recordUsage] calls
    leaves in [_tokenStats] the counters with the recorded counts added. *)
Lemma record_all_exact (l : list (option Usage)) (h : gmap loc TokenStats)
    (s : TokenStats) :
  h !! _tokenStats = Some s ->
  nonneg_stats s ->
  Forall nonneg_counts (recorded_counts l) ->
  stats_within exact_limit (plus_counts s (recorded_counts l)) ->
  foldl (fun h usage => _recordUsage usage h) h l =
  <[_tokenStats := plus_counts s (recorded_counts l)]> h.
Proof.
  revert h s. induction l as [|[u|] l IH]; intros h s Hs Hn Hl Hb.
  - simpl. rewrite plus_counts_nil. by rewrite insert_id.
  - change (recorded_counts (Some u :: l))
      with (usage_counts u :: recorded_counts l) in *.
    apply Forall_cons in Hl as [Hu Hl].
    assert (E : add_usage u s = plus_counts s [usage_counts u]).
    { apply add_usage_exact; try done. by eapply plus_counts_within. }
    cbn [foldl].
    rewrite (IH _ (add_usage u s)); [| by apply _recordUsage_lookup | | done |].
    + rewrite E, plus_counts_cons. apply insert_alter_tokenStats.
    + rewrite E. apply plus_counts_nonneg; [done|]. by constructor.
    + by rewrite E, plus_counts_cons.
  - by apply IH.
Qed.

Lemma Zsum_Permutation (l l' : list Z) : l ≡ₚ l' -> Zsum l = Zsum l'.
Proof. induction 1; simpl; unfold Zsum in *; simpl; lia. Qed.

Lemma plus_counts_Permutation (s : TokenStats) (l l' : list (Z * Z * Z)) :
  l ≡ₚ l' -> plus_counts s l = plus_counts s l'.
Proof.
  intros Hperm. unfold plus_counts.
  rewrite (Permutation_length Hperm).
  by rewrite (Zsum_Permutation _ _ (Permutation_map (fun x => x.1.1) Hperm)),
    (Zsum_Permutation _ _ (Permutation_map (fun x => x.1.2) Hperm)),
    (Zsum_Permutation _ _ (Permutation_map snd Hperm)).
Qed.

Lemma recorded_counts_Permutation (l l' : list (option Usage)) :
  l ≡ₚ l' -> recorded_counts l ≡ₚ recorded_counts l'.
Proof. intros Hperm. unfold recorded_counts. by rewrite Hperm. Qed.

(** X4. As long as the counts are not negative and no counter would pass
    2^53, the counters do not depend on the order in which the relays
    finish: recording the same summaries in another order leaves the same
    heap. *)
Theorem record_order_irrelevant (l l' : list (option Usage))
    (h : gmap loc TokenStats) (s : TokenStats) :
  h !! _tokenStats = Some s ->
  nonneg_stats s ->
  Forall nonneg_counts (recorded_counts l) ->
  stats_within exact_limit (plus_counts s (recorded_counts l)) ->
  l ≡ₚ l' ->
  foldl (fun h usage => _recordUsage usage h) h l =
  foldl (fun h usage => _recordUsage usage h) h l'.
Proof.
  intros Hs Hn Hl Hb Hperm.
  pose proof (recorded_counts_Permutation _ _ Hperm) as Hc.
  rewrite (record_all_exact l h s), (record_all_exact l' h s); try done.
  - by rewrite (plus_counts_Permutation s _ _ Hc).
  - by rewrite <- Hc.
  - by rewrite <- (plus_counts_Permutation s _ _ Hc).
Qed.

Lemma record_order_irrelevant_witness :
  foldl (fun h usage => _recordUsage usage h) initial_heap
    [Some (usage_summary 5 3 8); None; Some (usage_summary 7 2 9)] =
  foldl (fun h usage => _recordUsage usage h) initial_heap
    [Some (usage_summary 7 2 9); Some (usage_summary 5 3 8); None].
Proof.
  eapply (record_order_irrelevant _ _ initial_heap).
  - reflexivity.
  - repeat split; by vm_compute.
  - repeat constructor; by vm_compute.
  - repeat split; by vm_compute.
  - symmetry.
    exact (Permutation_cons_append [Some (usage_summary 5 3 8); None]
             (Some (usage_summary 7 2 9))).
Defined.

Lemma consistent_sums (l : list (option Usage)) :
  Forall (fun usage => from_option consistent_usage True usage) l ->
  Zsum (map snd (recorded_counts l)) =
  Zsum (map (fun x => x.1.1) (recorded_counts l)) +
  Zsum (map (fun x => x.1.2) (recorded_counts l)).
Proof.
  induction 1 as [|[u|] l Hu _ IH]; [done| |done].
  change (recorded_counts (Some u :: l))
    with (usage_counts u :: recorded_counts l).
  unfold Zsum in *. cbn [map foldr]. rewrite IH.
  unfold usage_counts. cbn [fst snd].
  unfold consistent_usage in Hu. simpl in Hu. lia.
Qed.

(** X5. [_recordUsage] keeps the total in step with the two other counts:
    when in every usage object recorded the total is the sum of the prompt
    and completion counts (a missing count being 0), the same holds of the
    counters at every point, as it does when the module is loaded -- as
    long as the counts are not negative and no counter would pass 2^53,
    where the sums are exact. *)
Theorem totals_stay_consistent (l : list (option Usage))
    (h : gmap loc TokenStats) (s : TokenStats) :
  h !! _tokenStats = Some s ->
  consistent_stats s ->
  Forall (fun usage => from_option consistent_usage True usage) l ->
  nonneg_stats s ->
  Forall nonneg_counts (recorded_counts l) ->
  stats_within exact_limit (plus_counts s (recorded_counts l)) ->
  exists s',
    foldl (fun h usage => _recordUsage usage h) h l !! _tokenStats = Some s' /\
    consistent_stats s'.
Proof.
  intros Hs Hc Hl Hn Hw Hb.
  exists (plus_counts s (recorded_counts l)). split.
  - rewrite (record_all_exact l h s) by done. apply lookup_insert_eq.
  - unfold consistent_stats, plus_counts in *.
    cbn [totalTokens promptTokens completionTokens].
    rewrite (consistent_sums l Hl). lia.
Qed.

Lemma totals_stay_consistent_witness :
  exists s',
    foldl (fun h usage => _recordUsage usage h) initial_heap
      [Some (usage_summary 5 3 8); None;
       Some {| prompt_tokens := Some 4; completion_tokens := None;
               total_tokens := Some 4 |}] !! _tokenStats = Some s' /\
    consistent_stats s'.
Proof.
  eapply (totals_stay_consistent _ initial_heap).
  - reflexivity.
  - reflexivity.
  - repeat constructor.
  - repeat split; by vm_compute.
  - repeat constructor; by vm_compute.
  - repeat split; by vm_compute.
Defined.

(** ** One usage, three places *)

Lemma done_not_in_frames (usage : option Usage) (l : list jsstring)
    (tail : list ChannelEvent) :
  EvWrite (DoneEvent usage) ∈ chunk_frames l ++ tail ->
  EvWrite (DoneEvent usage) ∈ tail.
Proof.
  intros H. apply elem_of_app in H as [H|H]; [|done].
  apply list_elem_of_fmap in H as (fragment & H & _). done.
Qed.

Lemma done_not_in_error_tail (usage : option Usage) :
  EvWrite (DoneEvent usage) ∉ [error_frame; EvEnd].
Proof.
  intros H. apply elem_of_cons in H as [H|H]; [done|].
  apply elem_of_cons in H as [H|H]; [done|]. by apply elem_of_nil in H.
Qed.

(** X6. The usage that the controller leaves in [res.locals.tokenUsage]
    for the logger is set exactly when the relay completed, and it is then
    the usage of the [done] frame sent to the client and the one recorded in
    the accumulator. When it is not set, no [done] frame was sent and the
    accumulator is as it was. *)
Theorem usage_in_three_places (OWNER_CONTEXT : jsstring) (env : Env)
    (openai : ChatCompletionRequest -> UpstreamResult) (body : jsvalue)
    (h : gmap loc TokenStats) (hdrs : gmap string string) :
  let w' := (handleChat OWNER_CONTEXT env openai body (request_world h hdrs)).2 in
  match locals_tokenUsage (res w') with
  | Some usage =>
      (exists written,
         channel (res w') =
           chunk_frames written ++ [EvWrite (DoneEvent usage); EvEnd]) /\
      heap w' = _recordUsage usage h
  | None =>
      (forall usage, EvWrite (DoneEvent usage) ∉ channel (res w')) /\
      heap w' = h
  end.
Proof.
  simpl. destruct (validation body) as [e|t] eqn:Hv.
  - rewrite (handleChat_rejects _ _ _ _ e) by done. simpl. split; [|done].
    intros usage H. apply elem_of_cons in H as [H|H]; [done|].
    apply elem_of_cons in H as [H|H]; [done|]. by apply elem_of_nil in H.
  - rewrite (handleChat_accepts _ _ _ _ t) by done. cbn [fst snd].
    unfold relay_world.
    destruct (openai _) as [e|chunks failure].
    { simpl. split; [|done]. intros usage. apply done_not_in_error_tail. }
    destruct (stream_error chunks failure) as [[e consumed]|]; simpl.
    + split; [|done]. intros usage H.
      by apply done_not_in_frames, done_not_in_error_tail in H.
    + split; [by eexists | done].
Qed.

(** ** The access log of a chat request *)

(** X7. The line logged for a chat request carries token counts exactly
    when the [done] frame carried a usage summary, and then the counts of
    that summary; otherwise the line stops at the duration. A request that
    passed the validator is logged with status 200, in green, even when the
    relay failed and the stream ended with the error frame. *)
Theorem chat_request_log (OWNER_CONTEXT : jsstring) (env : Env)
    (openai : ChatCompletionRequest -> UpstreamResult) (body : jsvalue)
    (h : gmap loc TokenStats) (hdrs : gmap string string)
    (ts method path : jsstring) (duration : Z) :
  let r := res (handleChat OWNER_CONTEXT env openai body (request_world h hdrs)).2 in
  (forall u, EvWrite (DoneEvent (Some u)) ∈ channel r ->
     Logger.tokenStr (locals_tokenUsage r) =
       lit " | tokens: prompt=" ++ Logger.show (prompt_tokens u)
       ++ lit " completion=" ++ Logger.show (completion_tokens u)
       ++ lit " total=" ++ Logger.show (total_tokens u)) /\
  ((forall u, EvWrite (DoneEvent (Some u)) ∉ channel r) ->
     Logger.log_line ts duration method path r =
       lit "[" ++ ts ++ lit "] " ++ method ++ lit " " ++ path ++ lit " "
       ++ Logger.statusLabel (statusCode r) ++ lit " " ++ decimal duration
       ++ lit "ms") /\
  (forall trimmed, validation body = inr trimmed ->
     Logger.statusLabel (statusCode r) = Logger.coloured 32 200).
Proof.
  simpl. destruct (validation body) as [e|t] eqn:Hv.
  - rewrite (handleChat_rejects _ _ _ _ e) by done. cbn [fst snd res].
    split_and!; [|by intros _; unfold Logger.log_line; simpl; rewrite ?app_nil_r|done].
    intros u H. cbn [error_world res channel] in H.
    apply elem_of_cons in H as [H|H]; [done|].
    apply elem_of_cons in H as [H|H]; [done|]. by apply elem_of_nil in H.
  - rewrite (handleChat_accepts _ _ _ _ t) by done. cbn [fst snd].
    assert (Hfail : forall written,
              let r := res (streaming_world h hdrs
                              [completion_request OWNER_CONTEXT env t]
                              (chunk_frames written ++ [error_frame; EvEnd]) None) in
              (forall u, EvWrite (DoneEvent (Some u)) ∈ channel r ->
                 Logger.tokenStr (locals_tokenUsage r) =
                   lit " | tokens: prompt=" ++ Logger.show (prompt_tokens u)
                   ++ lit " completion=" ++ Logger.show (completion_tokens u)
                   ++ lit " total=" ++ Logger.show (total_tokens u)) /\
              ((forall u, EvWrite (DoneEvent (Some u)) ∉ channel r) ->
                 Logger.log_line ts duration method path r =
                   lit "[" ++ ts ++ lit "] " ++ method ++ lit " " ++ path ++ lit " "
                   ++ Logger.statusLabel (statusCode r) ++ lit " "
                   ++ decimal duration ++ lit "ms") /\
              (forall trimmed : jsstring, inr (A:=JsError) t = inr trimmed ->
                 Logger.statusLabel (statusCode r) = Logger.coloured 32 200)).
    { intros written. cbn [streaming_world res channel locals_tokenUsage statusCode].
      split_and!; [|by intros _; unfold Logger.log_line; simpl; rewrite ?app_nil_r|done].
      intros u H. by apply done_not_in_frames, done_not_in_error_tail in H. }
    unfold relay_world.
    destruct (openai _) as [e|chunks failure]; [exact (Hfail [])|].
    destruct (stream_error chunks failure) as [[e consumed]|]; [apply Hfail|].
    cbn [streaming_world res channel locals_tokenUsage statusCode].
    split_and!; [| |done].
    + intros u H. apply done_not_in_frames in H.
      apply elem_of_cons in H as [H|H].
      * by injection H as <-.
      * apply elem_of_cons in H as [H|H]; [done|]. by apply elem_of_nil in H.
    + intros Hno. unfold Logger.log_line. cbn [locals_tokenUsage statusCode].
      destruct (captured_usage chunks None) as [u|]; simpl;
        [|by rewrite ?app_nil_r].
      destruct (Hno u). apply elem_of_app. right. apply list_elem_of_here.
Qed.

Lemma chat_request_log_witness :
  Logger.log_line (lit "2024-01-01T00:00:00.000Z") 12 (lit "POST") (lit "/")
    (res (handleChat sample_context sample_env breaking_upstream
            (body_of (JString (lit "hello"))) (request_world initial_heap ∅)).2)
  = lit "[2024-01-01T00:00:00.000Z] POST / " ++ [27%N] ++ lit "[32m200"
    ++ [27%N] ++ lit "[0m 12ms".
Proof.
  refine (eq_trans
            (proj1 (proj2 (chat_request_log sample_context sample_env
                             breaking_upstream (body_of (JString (lit "hello")))
                             initial_heap ∅ (lit "2024-01-01T00:00:00.000Z")
                             (lit "POST") (lit "/") 12)) _) _).
  - intros u H. vm_compute in H.
    repeat (apply elem_of_cons in H as [H|H]; [discriminate|]).
    by apply elem_of_nil in H.
  - reflexivity.
Defined.

(** ** The allowed origins *)

Lemma split_comma_no_comma (e : jsstring) : 44%N ∉ e -> split_comma e = [e].
Proof.
  induction e as [|c e IH]; simpl; [done|]. intros H.
  apply not_elem_of_cons in H as [Hc He].
  destruct (N.eqb_spec c 44); [congruence|]. by rewrite IH.
Qed.

Lemma split_comma_app (e rest : jsstring) :
  44%N ∉ e -> split_comma (e ++ 44%N :: rest) = e :: split_comma rest.
Proof.
  induction e as [|c e IH]; simpl; [done|]. intros H.
  apply not_elem_of_cons in H as [Hc He].
  destruct (N.eqb_spec c 44); [congruence|]. by rewrite IH.
Qed.

(** Splitting undoes joining, for entries that hold no comma. *)
Lemma split_comma_join (es : list jsstring) :
  es <> [] -> Forall (fun e => 44%N ∉ e) es -> split_comma (join_comma es) = es.
Proof.
  intros Hne Hes. destruct es as [|e es]; [done|]. clear Hne.
  revert e Hes. induction es as [|e' es IH]; intros e Hes; simpl.
  - rewrite app_nil_r. apply split_comma_no_comma. by inversion Hes.
  - inversion Hes as [|? ? He Hes']; subst.
    rewrite split_comma_app by done. f_equal. by apply IH.
Qed.

(** X8. With FRONTEND_URL a list of origins separated by commas, the
    allowed origins are its entries with the white space around each
    dropped; a request that names its origin is let through exactly when
    the origin is one of them, compared as written. *)
Theorem cors_allow_list (es : list jsstring) :
  es <> [] ->
  Forall (fun e => 44%N ∉ e) es ->
  join_comma es <> [] ->
  Cors.allowedOrigins (Some (join_comma es)) = map trim es /\
  (forall o, o <> [] ->
     Cors.origin (Some (join_comma es)) (Some o) = Ret true <->
     exists e, e ∈ es /\ trim e = o).
Proof.
  intros Hne Hes Hurl.
  assert (Hall : Cors.allowedOrigins (Some (join_comma es)) = map trim es).
  { unfold Cors.allowedOrigins.
    destruct (join_comma es) as [|c url] eqn:E; [done|]. simpl str_or.
    rewrite <- E. by rewrite split_comma_join. }
  split; [done|]. intros o Ho. unfold Cors.origin.
  destruct o as [|c o]; [done|]. rewrite Hall.
  case_bool_decide as Hin.
  - split; [|done]. intros _.
    apply list_elem_of_fmap in Hin as (e & -> & He). by exists e.
  - split; [done|]. intros (e & He & Ht). destruct Hin.
    apply list_elem_of_fmap. by exists e.
Qed.

Lemma cors_allow_list_witness :
  Cors.allowedOrigins (Some (lit "https://a.dev , https://b.dev")) =
  [lit "https://a.dev"; lit "https://b.dev"].
Proof.
  refine (proj1 (cors_allow_list [lit "https://a.dev "; lit " https://b.dev"]
                   _ _ _)).
  - discriminate.
  - repeat (constructor; [apply (bool_decide_unpack _); by vm_compute|]).
    constructor.
  - discriminate.
Defined.

(** X9. An origin that is named and is not in the list is refused, with
    an error that carries no status: handed to the error middleware, it is
    answered with status 500 and the JSON error
    [CORS: origin '<origin>' is not allowed]. Nothing else is refused. *)
Theorem cors_rejection_reported (FRONTEND_URL : option jsstring)
    (o : jsstring) (h : gmap loc TokenStats) (hdrs : gmap string string) :
  (o <> [] ->
   o ∉ Cors.allowedOrigins FRONTEND_URL ->
   let r := res (errorMiddleware (Cors.not_allowed o) (request_world h hdrs)).2 in
   Cors.origin FRONTEND_URL (Some o) = Throw (Cors.not_allowed o) /\
   statusCode r = 500 /\
   channel r =
     [EvSend (ErrorJson (lit "CORS: origin '" ++ o ++ lit "' is not allowed"));
      EvEnd]) /\
  (forall e, Cors.origin FRONTEND_URL (Some o) = Throw e ->
     o <> [] /\ (o ∉ Cors.allowedOrigins FRONTEND_URL) /\ e = Cors.not_allowed o).
Proof.
  split.
  - intros Ho Hout. unfold Cors.origin. destruct o as [|c o]; [done|].
    rewrite bool_decide_eq_false_2 by done. done.
  - intros e. unfold Cors.origin. destruct o as [|c o]; [done|].
    case_bool_decide as Hin; [done|]. by intros [= <-].
Qed.

Lemma cors_rejection_reported_witness :
  lit "https://evil.example" <> [] /\
  (lit "https://evil.example" ∉ Cors.allowedOrigins (Some (lit "https://a.dev"))) /\
  Cors.origin (Some (lit "https://a.dev")) (Some (lit "https://evil.example"))
  = Throw (Cors.not_allowed (lit "https://evil.example")) /\
  statusCode (res (errorMiddleware (Cors.not_allowed (lit "https://evil.example"))
                     (request_world initial_heap ∅)).2) = 500.
Proof.
  assert (Ho : lit "https://evil.example" <> []) by discriminate.
  assert (Hout : lit "https://evil.example"
                   ∉ Cors.allowedOrigins (Some (lit "https://a.dev"))).
  { apply (bool_decide_unpack _). by vm_compute. }
  split; [exact Ho|]. split; [exact Hout|].
  destruct (proj1 (cors_rejection_reported (Some (lit "https://a.dev"))
                     (lit "https://evil.example") initial_heap ∅) Ho Hout)
    as (Hrefused & Hstatus & _).
  split; [exact Hrefused | exact Hstatus].
Defined.

(** X10. A request without an [Origin] header, or with an empty one, is
    let through whatever the configuration. When FRONTEND_URL is unset, or
    set to the empty string, the one origin allowed is
    [http://localhost:5173]. *)
Theorem cors_without_configuration :
  (forall FRONTEND_URL,
     Cors.origin FRONTEND_URL None = Ret true /\
     Cors.origin FRONTEND_URL (Some []) = Ret true) /\
  (forall o, o <> [] ->
     (Cors.origin None (Some o) = Ret true <-> o = lit "http://localhost:5173") /\
     Cors.origin (Some []) (Some o) = Cors.origin None (Some o)).
Proof.
  split; [done|]. intros o Ho. split; [|done].
  unfold Cors.origin. destruct o as [|c o]; [done|].
  change (Cors.allowedOrigins None) with [lit "http://localhost:5173"].
  case_bool_decide as Hin.
  - by apply list_elem_of_singleton in Hin.
  - split; [done|]. intros E. destruct Hin. by apply list_elem_of_singleton.
Qed.

Lemma cors_without_configuration_witness :
  Cors.origin None (Some (lit "http://localhost:5173")) = Ret true.
Proof.
  refine (proj2 (proj1 (proj2 cors_without_configuration
                          (lit "http://localhost:5173") _)) eq_refl).
  discriminate.
Defined.

(** ** The widget: splitting the stream into frames *)

Lemma list_ind2 {A} (P : list A -> Prop) :
  P [] -> (forall x, P [x]) ->
  (forall x y l, P l -> P (y :: l) -> P (x :: y :: l)) ->
  forall l, P l.
Proof.
  intros H0 H1 H2 l.
  enough (P l /\ forall x, P (x :: l)) by tauto.
  induction l as [|y l [IH1 IH2]]; [by split|].
  split; [apply IH2|]. intros x. by apply H2.
Qed.

Lemma split_blank_match (rest : jsstring) :
  split_blank (10 :: 10 :: rest)%N = [] :: split_blank rest.
Proof. reflexivity. Qed.

Lemma split_blank_no_match (c d : N) (rest : jsstring) :
  ((c =? 10) && (d =? 10))%N = false ->
  split_blank (c :: d :: rest) = cons_first c (split_blank (d :: rest)).
Proof. intros H. change (split_blank (c :: d :: rest)) with
    (if ((c =? 10) && (d =? 10))%N then [] :: split_blank rest
     else cons_first c (split_blank (d :: rest))). by rewrite H. Qed.

Lemma split_blank_nonempty (s : jsstring) : split_blank s <> [].
Proof.
  induction s as [| x | x y l IH1 IH2] using list_ind2; [done..|].
  destruct ((x =? 10) && (y =? 10))%N eqn:E.
  - apply andb_prop in E as [->%N.eqb_eq ->%N.eqb_eq]. by rewrite split_blank_match.
  - rewrite split_blank_no_match by done.
    by destruct (split_blank (y :: l)).
Qed.

(** A string that splits into one part has no separator: it is the part. *)
Lemma split_blank_single (s part : jsstring) :
  split_blank s = [part] -> part = s.
Proof.
  revert part.
  induction s as [| x | x y l IH1 IH2] using list_ind2; intros part.
  - by intros [= <-].
  - by intros [= <-].
  - destruct ((x =? 10) && (y =? 10))%N eqn:E.
    + apply andb_prop in E as [->%N.eqb_eq ->%N.eqb_eq].
      rewrite split_blank_match. intros [= _ H].
      by destruct (split_blank_nonempty l).
    + rewrite split_blank_no_match by done.
      destruct (split_blank (y :: l)) as [|p [|p' ps]] eqn:Ey.
      * by destruct (split_blank_nonempty (y :: l)).
      * simpl. intros [= <-]. by rewrite (IH2 p).
      * simpl. by intros [=].
Qed.

(** What is kept in the buffer holds no separator. *)
Lemma split_blank_last (s : jsstring) :
  split_blank (default [] (last (split_blank s))) =
  [default [] (last (split_blank s))].
Proof.
  induction s as [| x | x y l IH1 IH2] using list_ind2; [done..|].
  destruct ((x =? 10) && (y =? 10))%N eqn:E.
  - apply andb_prop in E as [->%N.eqb_eq ->%N.eqb_eq].
    rewrite split_blank_match.
    destruct (split_blank l) as [|p ps] eqn:El;
      [by destruct (split_blank_nonempty l)|]. exact IH1.
  - pose proof (split_blank_no_match x y l E) as Hs. rewrite Hs.
    destruct (split_blank (y :: l)) as [|p [|p' ps]] eqn:Ey.
    + by destruct (split_blank_nonempty (y :: l)).
    + pose proof (split_blank_single _ _ Ey) as ->.
      cbn [cons_first last default]. unfold id. exact Hs.
    + exact IH2.
Qed.

(** Splitting a text that goes on: the parts of what was there, but for the
    last, which is split again with what follows. *)
Lemma split_blank_app (a b : jsstring) :
  split_blank (a ++ b) =
  removelast (split_blank a) ++
  split_blank (default [] (last (split_blank a)) ++ b).
Proof.
  induction a as [| x | x y l IH1 IH2] using list_ind2; [done..|].
  destruct ((x =? 10) && (y =? 10))%N eqn:E.
  - apply andb_prop in E as [->%N.eqb_eq ->%N.eqb_eq].
    change ((10 :: 10 :: l)%N ++ b) with (10 :: 10 :: (l ++ b))%N.
    rewrite !split_blank_match, IH1.
    destruct (split_blank l) as [|p ps] eqn:El;
      [by destruct (split_blank_nonempty l)|]. done.
  - change ((x :: y :: l) ++ b) with (x :: y :: (l ++ b)).
    rewrite !split_blank_no_match by done.
    change (y :: l ++ b) with ((y :: l) ++ b). rewrite IH2.
    destruct (split_blank (y :: l)) as [|p [|p' ps]] eqn:Ey.
    + by destruct (split_blank_nonempty (y :: l)).
    + pose proof (split_blank_single _ _ Ey) as ->.
      cbn [cons_first last default removelast app]. unfold id.
      change ((x :: y :: l) ++ b) with (x :: y :: (l ++ b)).
      by rewrite split_blank_no_match.
    + done.
Qed.

(** ** The widget: reading the stream *)

Section Reader.

Variable JSON_parse : jsstring -> option jsvalue.
Variable ToString : jsvalue -> jsstring.

Local Abbreviation handle_parts := (ChatBox.handle_parts JSON_parse ToString).
Local Abbreviation read_loop := (ChatBox.read_loop JSON_parse ToString).

Lemma handle_parts_cons (part : jsstring) (rest : list jsstring)
    (fullText : jsstring) :
  handle_parts (part :: rest) fullText =
  if negb (starts_with (lit "data: ") part) then handle_parts rest fullText
  else
    match JSON_parse (drop 6 part) with
    | None => handle_parts rest fullText
    | Some payload =>
        match prop "chunk" payload with
        | Throw e => Throw e
        | Ret chunk =>
            let fullText :=
              if truthy chunk then fullText ++ ChatBox.to_text ToString chunk
              else fullText in
            match prop "error" payload with
            | Throw e => Throw e
            | Ret error =>
                if truthy error then
                  Throw {| err_statusCode := None; err_status := None;
                           err_message := Some (ChatBox.to_text ToString error) |}
                else handle_parts rest fullText
            end
        end
    end.
Proof. reflexivity. Qed.

Lemma handle_parts_app (l1 l2 : list jsstring) (fullText : jsstring) :
  handle_parts (l1 ++ l2) fullText =
  match handle_parts l1 fullText with
  | Ret fullText' => handle_parts l2 fullText'
  | Throw e => Throw e
  end.
Proof.
  revert fullText. induction l1 as [|part l1 IH]; intros fullText; [done|].
  rewrite <- app_comm_cons, !handle_parts_cons.
  destruct (negb (starts_with (lit "data: ") part)); [apply IH|].
  destruct (JSON_parse (drop 6 part)) as [payload|]; [|apply IH].
  destruct (prop "chunk" payload) as [chunk|e]; [|done].
  destruct (prop "error" payload) as [error|e]; [|done].
  destruct (truthy error); [done|]. apply IH.
Qed.

Lemma removelast_split_blank_app (a b : jsstring) :
  removelast (split_blank (a ++ b)) =
  removelast (split_blank a) ++
  removelast (split_blank (default [] (last (split_blank a)) ++ b)).
Proof.
  rewrite split_blank_app. apply removelast_app, split_blank_nonempty.
Qed.

Lemma last_split_blank_app (a b : jsstring) :
  last (split_blank (a ++ b)) =
  last (split_blank (default [] (last (split_blank a)) ++ b)).
Proof.
  rewrite split_blank_app.
  destruct (split_blank (default [] (last (split_blank a)) ++ b))
    as [|p ps] eqn:E; [by destruct (split_blank_nonempty _ E)|].
  by rewrite last_app_cons.
Qed.

(** The loop, with a buffer that holds no separator, does what one pass
    over the whole text does. *)
Lemma read_loop_run (pieces : list jsstring) (broken : bool)
    (buffer fullText : jsstring) :
  split_blank buffer = [buffer] ->
  read_loop pieces broken buffer fullText =
  match handle_parts (removelast (split_blank (buffer ++ concat pieces)))
          fullText with
  | Ret fullText' =>
      if broken then Throw (TypeError "network error") else Ret fullText'
  | Throw e => Throw e
  end.
Proof.
  revert buffer fullText.
  induction pieces as [|value rest IH]; intros buffer fullText Hb.
  - simpl. rewrite app_nil_r, Hb. reflexivity.
  - simpl. rewrite app_assoc.
    rewrite (removelast_split_blank_app (buffer ++ value) (concat rest)).
    rewrite handle_parts_app.
    destruct (handle_parts (removelast (split_blank (buffer ++ value))) fullText)
      as [fullText'|e]; [|done].
    apply IH, split_blank_last.
Qed.

(** X11. How the transport cuts the response into pieces does not matter:
    the loop handles, in order, the parts that two line feeds close in the
    whole text received, and drops what follows the last separator. Two
    ways of cutting the same text give the same result. *)
Theorem chunking_is_irrelevant (pieces : list jsstring) (broken : bool) :
  read_loop pieces broken [] [] =
  match handle_parts (removelast (split_blank (concat pieces))) [] with
  | Ret fullText =>
      if broken then Throw (TypeError "network error") else Ret fullText
  | Throw e => Throw e
  end /\
  (forall pieces', concat pieces' = concat pieces ->
     read_loop pieces' broken [] [] = read_loop pieces broken [] []).
Proof.
  split.
  - by rewrite read_loop_run.
  - intros pieces' E. rewrite !read_loop_run by done. by rewrite E.
Qed.

End Reader.

Lemma chunking_is_irrelevant_witness :
  let text := wire toy_stringify
                [EvWrite (ChunkEvent (lit "Hi")); EvWrite (ChunkEvent (lit " there"));
                 EvWrite (DoneEvent None); EvEnd] in
  ChatBox.read_loop toy_parse (fun _ => []) [take 10 text; drop 10 text] false [] []
  = ChatBox.read_loop toy_parse (fun _ => []) [text] false [] [].
Proof.
  intros text.
  refine (proj2 (chunking_is_irrelevant toy_parse (fun _ => []) [text] false)
            [take 10 text; drop 10 text] _).
  reflexivity.
Defined.

(** ** The widget: what it posts and what it shows on failure *)

(** X12. Whatever the widget posts to [/api/chat] passes the validator of
    the controller as it is, when the input holds at most the 1000 code
    units that the text area lets in: the message is not blank, it is
    within the limit, and trimming it again on the server changes
    nothing. The widget posts nothing while a reply is streaming. *)
Theorem widget_posts_valid_messages
    (JSON_parse : jsstring -> option jsvalue) (ToString : jsvalue -> jsstring)
    (fetch : jsstring -> ChatBox.FetchResult) (w : ChatBox.Widget)
    (text : jsstring) :
  text ∈ (ChatBox.sendMessage JSON_parse ToString fetch w).2 ->
  (length (ChatBox.input_value w) <= 1000)%nat ->
  validation (body_of (JString text)) = inr text /\
  text = trim (ChatBox.input_value w) /\
  ChatBox.isStreaming w = false.
Proof.
  unfold ChatBox.sendMessage. intros Hin Hlen.
  case_bool_decide as Ht; simpl in Hin; [by apply elem_of_nil in Hin|].
  destruct (ChatBox.isStreaming w); simpl in Hin; [by apply elem_of_nil in Hin|].
  apply list_elem_of_singleton in Hin as ->. split_and!; [|done..].
  rewrite <- (trim_idempotent (ChatBox.input_value w)) at 2.
  apply validation_accepts; [done..| |]; rewrite trim_idempotent; [done|].
  etransitivity; [apply trim_length | done].
Qed.

Lemma widget_posts_valid_messages_witness :
  validation (body_of (JString (lit "hello"))) = inr (lit "hello").
Proof.
  refine (proj1 (widget_posts_valid_messages toy_parse (fun _ => [])
                   (fun _ => ChatBox.FetchRejected)
                   {| ChatBox.bubbles := []; ChatBox.input_value := lit " hello ";
                      ChatBox.isStreaming := false |}
                   (lit "hello") _ _)).
  - vm_compute. apply list_elem_of_here.
  - apply Nat.leb_le. vm_compute. reflexivity.
Defined.

(** X13. When the request fails -- [fetch] rejects, or the response is not
    [ok], whatever error text it carries, or the stream breaks, whatever
    had arrived before -- the bubble of the reply shows one fixed sentence,
    marked as an error: the text of the server's error is not shown, and
    the text streamed so far is dropped. The input is cleared and the
    widget is ready for the next message. *)
Theorem widget_failure_bubble
    (JSON_parse : jsstring -> option jsvalue) (ToString : jsvalue -> jsstring)
    (fetch : jsstring -> ChatBox.FetchResult) (w : ChatBox.Widget) :
  trim (ChatBox.input_value w) <> [] ->
  ChatBox.isStreaming w = false ->
  (fetch (trim (ChatBox.input_value w)) = ChatBox.FetchRejected \/
   (exists error, fetch (trim (ChatBox.input_value w)) = ChatBox.NotOk error) \/
   (exists pieces, fetch (trim (ChatBox.input_value w)) = ChatBox.Ok pieces true)) ->
  (ChatBox.sendMessage JSON_parse ToString fetch w).1 =
  {| ChatBox.bubbles :=
       ChatBox.bubbles w ++
       [ {| ChatBox.role := "user";
            ChatBox.textContent := trim (ChatBox.input_value w);
            ChatBox.isError := false |};
         {| ChatBox.role := "assistant"; ChatBox.textContent := ChatBox.sorry;
            ChatBox.isError := true |} ];
     ChatBox.input_value := [];
     ChatBox.isStreaming := false |}.
Proof.
  intros Ht Hs Hf. unfold ChatBox.sendMessage.
  rewrite bool_decide_eq_false_2, Hs by done. simpl.
  destruct Hf as [->|[[error ->]|[pieces ->]]]; [done..|].
  unfold ChatBox.receive. rewrite read_loop_run by done.
  by destruct (ChatBox.handle_parts _ _ _ _).
Qed.

Lemma widget_failure_bubble_witness :
  ChatBox.bubbles
    (ChatBox.sendMessage toy_parse (fun _ => [])
       (fun _ => ChatBox.NotOk (Some msg_too_long))
       {| ChatBox.bubbles := []; ChatBox.input_value := lit " hello ";
          ChatBox.isStreaming := false |}).1 =
  [ {| ChatBox.role := "user"; ChatBox.textContent := lit "hello";
       ChatBox.isError := false |};
    {| ChatBox.role := "assistant"; ChatBox.textContent := ChatBox.sorry;
       ChatBox.isError := true |} ].
Proof.
  refine (f_equal ChatBox.bubbles
            (widget_failure_bubble toy_parse (fun _ => [])
               (fun _ => ChatBox.NotOk (Some msg_too_long))
               {| ChatBox.bubbles := []; ChatBox.input_value := lit " hello ";
                  ChatBox.isStreaming := false |} _ eq_refl _)).
  - vm_compute. discriminate.
  - right. left. by eexists.
Defined.

(** ** From [res.write] to the bubble *)

Lemma split_blank_cons_ne (c : N) (rest : jsstring) :
  c <> 10%N -> split_blank (c :: rest) = cons_first c (split_blank rest).
Proof.
  intros Hc. destruct rest as [|d rest]; [done|].
  apply split_blank_no_match. apply N.eqb_neq in Hc. by rewrite Hc.
Qed.

(** A text without line feed, closed by two of them, is the first part. *)
Lemma split_blank_frame (t rest : jsstring) :
  10%N ∉ t -> split_blank (t ++ [10; 10]%N ++ rest) = t :: split_blank rest.
Proof.
  induction t as [|c t IH]; intros Ht; [done|].
  apply not_elem_of_cons in Ht as [Hc Ht].
  rewrite <- app_comm_cons, split_blank_cons_ne by done. by rewrite IH.
Qed.

Lemma starts_with_app (a x : jsstring) : starts_with a (a ++ x) = true.
Proof. induction a as [|c a IH]; [done|]. simpl. by rewrite N.eqb_refl. Qed.

Lemma fragments_nonempty (chunks : list Chunk) :
  Forall (fun fragment => fragment <> []) (fragments chunks).
Proof.
  unfold fragments. induction chunks as [|chunk chunks IH]; simpl; [constructor|].
  destruct (fragment_of chunk) as [fragment|] eqn:E; [|done].
  constructor; [|done].
  unfold fragment_of in E. destruct (chunk_choices chunk) as [[|choice ?]|]; try done.
  destruct (choice_delta choice) as [delta|]; [|done].
  by destruct (delta_content delta) as [[|c s]|]; simplify_eq.
Qed.

Lemma payloads_chunk_frames (l : list jsstring) (tail : list ChannelEvent) :
  payloads (chunk_frames l ++ tail) = map ChunkEvent l ++ payloads tail.
Proof. induction l as [|x l IH]; [done|]. simpl. by rewrite <- IH. Qed.

Section Codec.

(** [JSON.stringify] on the payloads of the service, [JSON.parse] in the
    widget, of which two things are used: the text of a payload holds no
    raw line feed, and parsing it gives back an object with the [chunk] and
    [error] that the payload has. *)
Variable JSON_stringify : SsePayload -> jsstring.
Variable JSON_parse : jsstring -> option jsvalue.
Variable ToString : jsvalue -> jsstring.

Hypothesis stringify_no_line_feed : forall payload, 10%N ∉ JSON_stringify payload.
Hypothesis parse_stringify :
  forall payload, exists fields,
    JSON_parse (JSON_stringify payload) = Some (JObject fields) /\
    assoc "chunk" fields = chunk_of payload /\
    assoc "error" fields = error_of payload.

Local Abbreviation handle_parts := (ChatBox.handle_parts JSON_parse ToString).
Local Abbreviation frame := (fun payload => lit "data: " ++ JSON_stringify payload).

Lemma wire_payloads (evs : list ChannelEvent) :
  wire JSON_stringify evs =
  concat (map (fun payload => frame payload ++ [10; 10]%N) (payloads evs)).
Proof.
  unfold wire. induction evs as [|[payload| |] evs IH]; [done| |done..].
  cbn [map concat]. rewrite IH.
  change (payloads (EvWrite payload :: evs)) with (payload :: payloads evs).
  cbn [map concat]. by rewrite <- !app_assoc.
Qed.

Lemma split_blank_frames (ps : list SsePayload) :
  split_blank (concat (map (fun payload => frame payload ++ [10; 10]%N) ps)) =
  map frame ps ++ [[]].
Proof.
  induction ps as [|p ps IH]; [done|]. cbn [map concat].
  rewrite <- app_assoc, split_blank_frame, IH; [done|].
  intros H. apply elem_of_app in H as [H|H].
  - vm_compute in H. repeat (apply elem_of_cons in H as [H|H]; [done|]).
    by apply elem_of_nil in H.
  - by apply stringify_no_line_feed in H.
Qed.

(** What the loop makes of one frame of the service. *)
Lemma handle_frame (payload : SsePayload) (rest : list jsstring)
    (fullText : jsstring) :
  handle_parts (frame payload :: rest) fullText =
  match payload with
  | ChunkEvent ((_ :: _) as chunk) => handle_parts rest (fullText ++ chunk)
  | ErrorEvent ((_ :: _) as error) =>
      Throw {| err_statusCode := None; err_status := None;
               err_message := Some error |}
  | _ => handle_parts rest fullText
  end.
Proof.
  rewrite handle_parts_cons, starts_with_app. simpl negb. cbv iota.
  change (drop 6 (lit "data: " ++ JSON_stringify payload))
    with (JSON_stringify payload).
  destruct (parse_stringify payload) as (fields & -> & Hc & He).
  simpl prop. rewrite Hc, He.
  by destruct payload as [[|c chunk]|usage|[|c error]].
Qed.

Lemma handle_chunk_frames (l : list jsstring) (rest : list jsstring)
    (fullText : jsstring) :
  Forall (fun fragment => fragment <> []) l ->
  handle_parts (map frame (map ChunkEvent l) ++ rest) fullText =
  handle_parts rest (fullText ++ concat l).
Proof.
  intros Hl. revert fullText.
  induction Hl as [|fragment l Hf _ IH]; intros fullText.
  - simpl. by rewrite app_nil_r.
  - cbn [map]. rewrite <- app_comm_cons.
    rewrite (handle_frame (ChunkEvent fragment)).
    destruct fragment as [|c fragment]; [done|].
    rewrite IH. cbn [concat]. by rewrite <- app_assoc.
Qed.

(** What the widget reads from the channel of a response, however the
    transport cuts the text. *)
Lemma read_channel (evs : list ChannelEvent) (pieces : list jsstring)
    (broken : bool) :
  concat pieces = wire JSON_stringify evs ->
  ChatBox.read_loop JSON_parse ToString pieces broken [] [] =
  match handle_parts (map frame (payloads evs)) [] with
  | Ret fullText =>
      if broken then Throw (TypeError "network error") else Ret fullText
  | Throw e => Throw e
  end.
Proof.
  intros E. rewrite read_loop_run by done. simpl app.
  rewrite E, wire_payloads, split_blank_frames.
  by rewrite removelast_last.
Qed.

End Codec.

Section EndToEnd.

Variable JSON_stringify : SsePayload -> jsstring.
Variable JSON_parse : jsstring -> option jsvalue.
Variable ToString : jsvalue -> jsstring.

Hypothesis stringify_no_line_feed : forall payload, 10%N ∉ JSON_stringify payload.
Hypothesis parse_stringify :
  forall payload, exists fields,
    JSON_parse (JSON_stringify payload) = Some (JObject fields) /\
    assoc "chunk" fields = chunk_of payload /\
    assoc "error" fields = error_of payload.

Variable OWNER_CONTEXT : jsstring.
Variable env : Env.
Variable openai : ChatCompletionRequest -> UpstreamResult.

(** X14. From the model to the visitor. When the widget posts a message,
    the relay of the controller succeeds, and the transport delivers what
    was written on the channel, cut into pieces in any way, the bubble of
    the reply ends up holding the fragments of the upstream stream, in
    order and with nothing added or lost; the [done] frame adds nothing to
    it. *)
Theorem reply_reaches_the_bubble (w : ChatBox.Widget)
    (fetch : jsstring -> ChatBox.FetchResult) (text : jsstring)
    (chunks : list Chunk) (pieces : list jsstring)
    (h : gmap loc TokenStats) (hdrs : gmap string string) :
  ChatBox.isStreaming w = false ->
  trim (ChatBox.input_value w) = text ->
  text <> [] ->
  (length text <= 1000)%nat ->
  openai (completion_request OWNER_CONTEXT env text) = Streaming chunks None ->
  Forall (fun chunk => chunk_choices chunk <> None) chunks ->
  fetch text = ChatBox.Ok pieces false ->
  concat pieces =
    wire JSON_stringify
      (channel (res (handleChat OWNER_CONTEXT env openai (body_of (JString text))
                       (request_world h hdrs)).2)) ->
  (ChatBox.sendMessage JSON_parse ToString fetch w).1 =
  {| ChatBox.bubbles :=
       ChatBox.bubbles w ++
       [ {| ChatBox.role := "user"; ChatBox.textContent := text;
            ChatBox.isError := false |};
         {| ChatBox.role := "assistant";
            ChatBox.textContent := concat (fragments chunks);
            ChatBox.isError := false |} ];
     ChatBox.input_value := [];
     ChatBox.isStreaming := false |}.
Proof.
  intros Hs Ht Hne Hlen Hup Hchunks Hfetch Hwire.
  assert (Htt : trim text = text) by (rewrite <- Ht; apply trim_idempotent).
  assert (Hv : validation (body_of (JString text)) = inr text).
  { rewrite <- Htt at 2. apply validation_accepts; [done..| |]; by rewrite Htt. }
  rewrite (handleChat_accepts _ _ _ _ text) in Hwire by done.
  cbn [fst snd] in Hwire. unfold relay_world in Hwire.
  rewrite Hup, stream_error_None in Hwire by done. simpl in Hwire.
  unfold ChatBox.sendMessage. rewrite Ht, bool_decide_eq_false_2, Hs by done.
  simpl. rewrite Hfetch. unfold ChatBox.receive.
  rewrite (read_channel JSON_stringify JSON_parse ToString
             stringify_no_line_feed _ _ _ Hwire).
  rewrite payloads_chunk_frames, map_app.
  rewrite (handle_chunk_frames JSON_stringify JSON_parse ToString parse_stringify)
    by apply fragments_nonempty.
  change (payloads [EvWrite (DoneEvent (captured_usage chunks None)); EvEnd])
    with [DoneEvent (captured_usage chunks None)].
  cbn [map].
  by rewrite (handle_frame JSON_stringify JSON_parse ToString parse_stringify).
Qed.

(** X15. And when the upstream fails, on opening the call or in the middle
    of the stream, the widget finds the error frame at the end of what was
    written: whatever text had been forwarded before, the bubble shows the
    fixed sentence, marked as an error. *)
Theorem upstream_failure_reaches_the_bubble (w : ChatBox.Widget)
    (fetch : jsstring -> ChatBox.FetchResult) (text : jsstring)
    (pieces : list jsstring) (broken : bool)
    (h : gmap loc TokenStats) (hdrs : gmap string string) :
  ChatBox.isStreaming w = false ->
  trim (ChatBox.input_value w) = text ->
  text <> [] ->
  (length text <= 1000)%nat ->
  upstream_fails OWNER_CONTEXT env openai text ->
  fetch text = ChatBox.Ok pieces broken ->
  concat pieces =
    wire JSON_stringify
      (channel (res (handleChat OWNER_CONTEXT env openai (body_of (JString text))
                       (request_world h hdrs)).2)) ->
  (ChatBox.sendMessage JSON_parse ToString fetch w).1 =
  {| ChatBox.bubbles :=
       ChatBox.bubbles w ++
       [ {| ChatBox.role := "user"; ChatBox.textContent := text;
            ChatBox.isError := false |};
         {| ChatBox.role := "assistant"; ChatBox.textContent := ChatBox.sorry;
            ChatBox.isError := true |} ];
     ChatBox.input_value := [];
     ChatBox.isStreaming := false |}.
Proof.
  intros Hs Ht Hne Hlen Hup Hfetch Hwire.
  assert (Htt : trim text = text) by (rewrite <- Ht; apply trim_idempotent).
  assert (Hv : validation (body_of (JString text)) = inr text).
  { rewrite <- Htt at 2. apply validation_accepts; [done..| |]; by rewrite Htt. }
  rewrite (handleChat_accepts _ _ _ _ text) in Hwire by done.
  cbn [fst snd] in Hwire.
  assert (exists written,
            channel (res (relay_world OWNER_CONTEXT env openai h hdrs text)) =
            chunk_frames written ++ [error_frame; EvEnd] /\
            Forall (fun fragment => fragment <> []) written)
    as (written & Hch & Hwritten).
  { unfold relay_world.
    destruct Hup as [[e He]|(chunks & failure & e & consumed & He & Herr)];
      rewrite He, ?Herr.
    - exists []. by split.
    - exists (fragments consumed). split; [done|]. apply fragments_nonempty. }
  rewrite Hch in Hwire.
  unfold ChatBox.sendMessage. rewrite Ht, bool_decide_eq_false_2, Hs by done.
  simpl. rewrite Hfetch. unfold ChatBox.receive.
  rewrite (read_channel JSON_stringify JSON_parse ToString
             stringify_no_line_feed _ _ _ Hwire).
  rewrite payloads_chunk_frames, map_app.
  rewrite (handle_chunk_frames JSON_stringify JSON_parse ToString parse_stringify)
    by done.
  change (payloads [error_frame; EvEnd])
    with [ErrorEvent (lit "Stream error occurred.")].
  cbn [map].
  by rewrite (handle_frame JSON_stringify JSON_parse ToString parse_stringify).
Qed.

End EndToEnd.

Lemma toy_no_line_feed (payload : SsePayload) : 10%N ∉ toy_stringify payload.
Proof.
  assert (H : forall s : jsstring, 10%N ∉ map (fun c => c + 11)%N s).
  { intros s Hin. apply list_elem_of_fmap in Hin as (c & Hc & _). lia. }
  destruct payload as [chunk|usage|error]; simpl; intros Hin;
    apply elem_of_cons in Hin as [Hin|Hin]; try done;
    try by apply H in Hin. by apply elem_of_nil in Hin.
Qed.

Lemma toy_parse_stringify (payload : SsePayload) :
  exists fields,
    toy_parse (toy_stringify payload) = Some (JObject fields) /\
    assoc "chunk" fields = chunk_of payload /\
    assoc "error" fields = error_of payload.
Proof.
  assert (H : forall s : jsstring,
            map (fun c => c - 11)%N (map (fun c => c + 11)%N s) = s).
  { intros s. rewrite map_map. rewrite <- (map_id s) at 2.
    apply map_ext. intros c. lia. }
  destruct payload as [chunk|usage|error]; simpl; eexists;
    (split; [reflexivity|]); simpl; by rewrite ?H.
Qed.

Lemma reply_reaches_the_bubble_witness :
  let text := wire toy_stringify
                [EvWrite (ChunkEvent (lit "Hi")); EvWrite (ChunkEvent (lit " there"));
                 EvWrite (DoneEvent (Some (usage_summary 5 3 8))); EvEnd] in
  ChatBox.bubbles
    (ChatBox.sendMessage toy_parse (fun _ => [])
       (fun _ => ChatBox.Ok [take 10 text; drop 10 text] false)
       {| ChatBox.bubbles := []; ChatBox.input_value := lit " hello ";
          ChatBox.isStreaming := false |}).1 =
  [ {| ChatBox.role := "user"; ChatBox.textContent := lit "hello";
       ChatBox.isError := false |};
    {| ChatBox.role := "assistant"; ChatBox.textContent := lit "Hi there";
       ChatBox.isError := false |} ].
Proof.
  intros text.
  refine (f_equal ChatBox.bubbles
            (reply_reaches_the_bubble toy_stringify toy_parse (fun _ => [])
               toy_no_line_feed toy_parse_stringify
               sample_context sample_env sample_upstream
               {| ChatBox.bubbles := []; ChatBox.input_value := lit " hello ";
                  ChatBox.isStreaming := false |}
               (fun _ => ChatBox.Ok [take 10 text; drop 10 text] false)
               (lit "hello") sample_stream [take 10 text; drop 10 text]
               initial_heap ∅ eq_refl eq_refl _ _ eq_refl _ eq_refl _)).
  - discriminate.
  - apply Nat.leb_le. vm_compute. reflexivity.
  - repeat constructor; discriminate.
  - vm_compute. reflexivity.
Defined.

Lemma upstream_failure_reaches_the_bubble_witness :
  let text := wire toy_stringify
                [EvWrite (ChunkEvent (lit "Hi")); error_frame; EvEnd] in
  upstream_fails sample_context sample_env breaking_upstream (lit "hello") /\
  ChatBox.bubbles
    (ChatBox.sendMessage toy_parse (fun _ => [])
       (fun _ => ChatBox.Ok [take 10 text; drop 10 text] false)
       {| ChatBox.bubbles := []; ChatBox.input_value := lit " hello ";
          ChatBox.isStreaming := false |}).1 =
  [ {| ChatBox.role := "user"; ChatBox.textContent := lit "hello";
       ChatBox.isError := false |};
    {| ChatBox.role := "assistant"; ChatBox.textContent := ChatBox.sorry;
       ChatBox.isError := true |} ].
Proof.
  intros text.
  assert (H : upstream_fails sample_context sample_env breaking_upstream
                (lit "hello")).
  { right. by eexists _, _, _, _. }
  split; [exact H|].
  refine (f_equal ChatBox.bubbles
            (upstream_failure_reaches_the_bubble toy_stringify toy_parse
               (fun _ => []) toy_no_line_feed toy_parse_stringify
               sample_context sample_env breaking_upstream
               {| ChatBox.bubbles := []; ChatBox.input_value := lit " hello ";
                  ChatBox.isStreaming := false |}
               (fun _ => ChatBox.Ok [take 10 text; drop 10 text] false)
               (lit "hello") [take 10 text; drop 10 text] false
               initial_heap ∅ eq_refl eq_refl _ _ H eq_refl _)).
  - discriminate.
  - apply Nat.leb_le. vm_compute. reflexivity.
  - vm_compute. reflexivity.
Defined.

(** ** Which usage is captured *)

Lemma captured_usage_none (chunks : list Chunk) (usage : option Usage) :
  Forall (fun chunk => chunk_usage chunk = None) chunks ->
  captured_usage chunks usage = usage.
Proof.
  intros H. revert usage.
  induction H as [|chunk chunks Hc _ IH]; intros usage; simpl; [done|].
  by rewrite Hc, IH.
Qed.

Lemma captured_usage_app (l1 l2 : list Chunk) (usage : option Usage) :
  captured_usage (l1 ++ l2) usage = captured_usage l2 (captured_usage l1 usage).
Proof.
  revert usage. induction l1 as [|chunk l1 IH]; intros usage; [done|].
  simpl. apply IH.
Qed.

(** X16. The usage of a relay is the one of the last chunk that carries
    one, wherever it is in the stream and whatever else the chunk carries.
    When no chunk carries one, the relay still succeeds, but its [done]
    frame says [usage: null] and the accumulator does not count the
    request. *)
Theorem captured_usage_is_the_last (OWNER_CONTEXT : jsstring) (env : Env)
    (openai : ChatCompletionRequest -> UpstreamResult)
    (body : jsvalue) (s : jsstring) (chunks : list Chunk)
    (h : gmap loc TokenStats) (hdrs : gmap string string) :
  nullish body = false ->
  message_of body = JString s ->
  trim s <> [] ->
  (length (trim s) <= 1000)%nat ->
  openai (completion_request OWNER_CONTEXT env (trim s)) = Streaming chunks None ->
  Forall (fun chunk => chunk_choices chunk <> None) chunks ->
  let w' := (handleChat OWNER_CONTEXT env openai body (request_world h hdrs)).2 in
  (Forall (fun chunk => chunk_usage chunk = None) chunks ->
   EvWrite (DoneEvent None) ∈ channel (res w') /\ heap w' = h) /\
  (forall before chunk after u,
     chunks = before ++ chunk :: after ->
     chunk_usage chunk = Some u ->
     Forall (fun chunk => chunk_usage chunk = None) after ->
     EvWrite (DoneEvent (Some u)) ∈ channel (res w') /\
     heap w' = _recordUsage (Some u) h).
Proof.
  intros Hn Hm Ht Hlen Hup Hchunks. simpl.
  rewrite (handleChat_accepts _ _ _ _ (trim s)) by by apply validation_accepts.
  cbn [fst snd]. unfold relay_world.
  rewrite Hup, stream_error_None by done. simpl.
  assert (Hin : forall usage, captured_usage chunks None = usage ->
            EvWrite (DoneEvent usage) ∈
              chunk_frames (fragments chunks) ++
              [EvWrite (DoneEvent (captured_usage chunks None)); EvEnd]).
  { intros usage <-. apply elem_of_app. right. apply list_elem_of_here. }
  split.
  - intros Hnone. rewrite (captured_usage_none chunks None Hnone) in *.
    split; [by apply Hin | done].
  - intros before chunk after u -> Hu Hafter.
    assert (E : captured_usage (before ++ chunk :: after) None = Some u).
    { rewrite captured_usage_app. simpl. rewrite Hu.
      by apply captured_usage_none. }
    rewrite E in *. split; [by apply Hin | done].
Qed.

Lemma captured_usage_is_the_last_witness :
  let w' := (handleChat sample_context sample_env
               (fun _ => Streaming [text_chunk (lit "Hi")] None)
               (body_of (JString (lit "hello")))
               (request_world initial_heap ∅)).2 in
  EvWrite (DoneEvent None) ∈ channel (res w') /\ heap w' = initial_heap.
Proof.
  refine (proj1 (captured_usage_is_the_last sample_context sample_env
                   (fun _ => Streaming [text_chunk (lit "Hi")] None)
                   (body_of (JString (lit "hello"))) (lit "hello")
                   [text_chunk (lit "Hi")] initial_heap ∅
                   eq_refl eq_refl _ _ eq_refl _) _).
  - vm_compute. discriminate.
  - apply Nat.leb_le. vm_compute. reflexivity.
  - repeat constructor; discriminate.
  - repeat constructor.
Defined.
